(** * FAQ chat-bot server: a shallow embedding of [server.js]

    The matching pipeline of the server (text normalisation, synonym
    expansion, TF-IDF scoring with confidence thresholds, the Fuse fuzzy
    fallback, the consecutive-failure counter and the corpus reload) is
    embedded as Rocq functions, and the properties the specification
    states about them are proved or refuted.

    JavaScript values are modelled as the program has them: strings are
    sequences of UTF-16 code units, numbers are IEEE 754 binary64 floats
    (Rocq's primitive floats), arrays are lists.  The third-party
    libraries the server calls ([natural]'s TF-IDF, stemmer, stop-word list
    and WordNet, [fuse.js], and the built-in Unicode operations) are not
    part of the repository: they are the fields of the class [Externals]. *)

From Stdlib Require Import List ZArith NArith Bool Lia String Ascii Floats Sorted
  Permutation.
Import ListNotations.

Set Implicit Arguments.
Set Warnings "-inexact-float".

(** ** JavaScript strings *)

Module JS.

(** A string is its sequence of UTF-16 code units. *)
Definition jsstring := list N.

(** An ASCII literal as a JavaScript string. *)
Definition lit (s : string) : jsstring :=
  map N_of_ascii (list_ascii_of_string s).

Definition eqb (a b : jsstring) : bool :=
  if list_eq_dec N.eq_dec a b then true else false.

(** [Array.prototype.includes] on an array of strings. *)
Definition includes (l : list jsstring) (s : jsstring) : bool :=
  existsb (eqb s) l.

(** The characters matched by the regular-expression class [\s], which
    are also the ones [String.prototype.trim] strips: the WhiteSpace and
    LineTerminator code points of ECMAScript. *)
Definition is_ws (c : N) : bool :=
  ((9 <=? c) && (c <=? 13) || (c =? 32) || (c =? 160) || (c =? 5760)
   || (8192 <=? c) && (c <=? 8202) || (c =? 8232) || (c =? 8233)
   || (c =? 8239) || (c =? 8287) || (c =? 12288) || (c =? 65279))%N.

Definition space : N := 32.

(** [/[a-z]/] *)
Definition is_lower (c : N) : bool := ((97 <=? c) && (c <=? 122))%N.
(** [/[0-9]/] *)
Definition is_digit (c : N) : bool := ((48 <=? c) && (c <=? 57))%N.
(** the Bengali block, U+0980 to U+09FF *)
Definition is_bengali (c : N) : bool := ((2432 <=? c) && (c <=? 2559))%N.

Fixpoint dropWhile (p : N -> bool) (s : jsstring) : jsstring :=
  match s with
  | [] => []
  | c :: s' => if p c then dropWhile p s' else s
  end.

(** [String.prototype.trim] *)
Definition trim (s : jsstring) : jsstring :=
  rev (dropWhile is_ws (rev (dropWhile is_ws s))).

(** [s.split(/\s+/)]: the pieces between maximal runs of white space; a
    leading or trailing run leaves an empty piece, and the empty string
    splits into one empty piece. *)
Fixpoint split_ws (s : jsstring) : list jsstring :=
  match s with
  | [] => [[]]
  | c :: s' =>
      let r := split_ws s' in
      if is_ws c then
        match s' with
        | c' :: _ => if is_ws c' then r else [] :: r
        | [] => [] :: r
        end
      else
        match r with
        | t :: ts => (c :: t) :: ts
        | [] => [[c]]
        end
  end.

(** Truthiness of a string: [Boolean(s)] is false exactly for the empty
    string. *)
Definition truthy (s : jsstring) : bool :=
  match s with [] => false | _ :: _ => true end.

(** [arr.join(" ")] *)
Fixpoint join (l : list jsstring) : jsstring :=
  match l with
  | [] => []
  | [t] => t
  | t :: ts => t ++ space :: join ts
  end.

(** [s.replace(/[^...]/g, " ")]: every character outside the class
    [keep] becomes a space. *)
Definition replace_outside (keep : N -> bool) (s : jsstring) : jsstring :=
  map (fun c => if keep c then c else space) s.

(** [s.replace(/\r\n/g, "\n")] *)
Fixpoint replace_crlf (s : jsstring) : jsstring :=
  match s with
  | 13%N :: ((10%N :: _) as s') => replace_crlf s'
  | c :: s' => c :: replace_crlf s'
  | [] => []
  end.

Definition newline : N := 10.

Fixpoint takeWhile (p : N -> bool) (s : jsstring) : jsstring :=
  match s with
  | [] => []
  | c :: s' => if p c then c :: takeWhile p s' else []
  end.

(** [s] without the prefix [p], when it starts with it. *)
Fixpoint strip_prefix (p s : jsstring) : option jsstring :=
  match p, s with
  | [], _ => Some s
  | c :: p', d :: s' => if (c =? d)%N then strip_prefix p' s' else None
  | _ :: _, [] => None
  end.

(** The lines of a text file joined by line feeds. *)
Fixpoint lines (l : list jsstring) : jsstring :=
  match l with
  | [] => []
  | [t] => t
  | t :: ts => t ++ newline :: lines ts
  end.

End JS.

Import JS.

(** ** Values, exceptions and calls to the libraries *)

(** The value of [req.body.question]: any JSON value, or [undefined] when
    the field is missing.  [JObject] stands for every array and object. *)
Inductive jsval :=
| JUndefined
| JNull
| JBool (b : bool)
| JNumber (x : float)
| JString (s : jsstring)
| JObject.

(** [Boolean(v)] *)
Definition js_truthy (v : jsval) : bool :=
  match v with
  | JUndefined | JNull => false
  | JBool b => b
  | JNumber x => negb (PrimFloat.eqb x 0 || PrimFloat.is_nan x)
  | JString s => truthy s
  | JObject => true
  end.

Inductive exn :=
| TypeError   (* a property read or a call on [undefined] or [null] *)
| IOError.    (* [fs.readFileSync] failed *)

(** One FAQ entry, [{ q, a }]. *)
Record faq := { q : jsstring; a : jsstring }.

(** The object [findAnswers] returns; [None] is [null]. *)
Record QueryResult := { answer : option jsstring; suggestions : list jsstring }.

(** An element of [scores]: [{ index, score }]. *)
Record scored := { index : nat; score : float }.

Module Fuse.
(** An element of the array [fuse.search] returns (with [includeScore]). *)
Record result := { item : faq; score : float }.
End Fuse.

(** An element of the array WordNet passes to the lookup callback. *)
Record wordnetResult := { synonyms : list jsstring }.

(** A call to one of the three indexes. *)
Inductive call :=
| WordnetLookup (word : jsstring)
| TfidfTfidfs (query : jsstring)
| FuseSearch (query : jsstring) (limit : nat).

(** ** Computations that call the libraries and may throw

    A computation yields the calls it made, in order, and either a value
    or the exception it threw. *)

Inductive result (A : Type) :=
| Ok (x : A)
| Throw (e : exn).
Arguments Throw {A} e.

Definition M (A : Type) : Type := list call * result A.

Definition ret {A} (x : A) : M A := ([], Ok x).

Definition throw {A} (e : exn) : M A := ([], Throw e).

Definition bind {A B} (m : M A) (f : A -> M B) : M B :=
  match m with
  | (l, Ok x) => let (l', r) := f x in (l ++ l', r)
  | (l, Throw e) => (l, Throw e)
  end.

Definition called (c : call) : M unit := ([c], Ok tt).

Definition calls {A} (m : M A) : list call := fst m.
Definition outcome {A} (m : M A) : result A := snd m.

Notation "x <- m ;; k" := (bind m (fun x => k))
  (at level 61, m at next level, right associativity).
Notation "m ;;; k" := (bind m (fun _ => k))
  (at level 61, right associativity).

(** [arr.map(f)] for an [f] that may throw. *)
Fixpoint mapM {A B} (f : A -> M B) (l : list A) : M (list B) :=
  match l with
  | [] => ret []
  | x :: l' => y <- f x ;; ys <- mapM f l' ;; ret (y :: ys)
  end.

(** ** The libraries

    [natural] (TF-IDF, Porter stemmer, stop words, WordNet), [fuse.js] and
    the built-in Unicode operations are not part of the repository.  The
    server is embedded over any implementation of them. *)
Class Externals := {
  (** [String.prototype.normalize("NFC")] *)
  normalize_NFC : jsstring -> jsstring;
  (** [String.prototype.toLowerCase] *)
  toLowerCase : jsstring -> jsstring;
  (** [natural.stopwords] *)
  stopwords : list jsstring;
  (** [natural.PorterStemmer.stem] *)
  stem : jsstring -> jsstring;
  (** [wordnet.lookup(word, callback)]: the array handed to the callback,
      or [None] when the lookup throws. *)
  wordnet_lookup : jsstring -> option (list wordnetResult);
  (** [tfidf.tfidf(query, i)] over the documents added so far *)
  tfidf_measure : list jsstring -> jsstring -> nat -> float;
  (** [fuse.search(query, { limit })] of a [Fuse] built over a collection
      with the options of [loadFaqs] *)
  fuse_search : list faq -> jsstring -> nat -> list Fuse.result
}.

(** [Array.prototype.sort(compare)].  ECMAScript fixes the result for a
    consistent comparator: the stable arrangement in which [x] precedes
    [y] whenever [compare(x, y) < 0]; a comparator result of [NaN] counts
    as [0].  Stable insertion computes it. *)
Section Sort.
Variable A : Type.
Variable compare : A -> A -> float.

Fixpoint insert (x : A) (l : list A) : list A :=
  match l with
  | [] => [x]
  | y :: l' =>
      if (0 <? compare x y)%float then y :: insert x l' else x :: l
  end.

Fixpoint sort (l : list A) : list A :=
  match l with
  | [] => []
  | x :: l' => insert x (sort l')
  end.

(** [x] may stand right before [y]: the comparator does not put [y]
    first. *)
Definition in_order (x y : A) : Prop := (0 <? compare x y)%float = false.
End Sort.

(** ** Finite doubles as integers

    A double that is neither [NaN] nor an infinity is an integer multiple
    of [2 ^ emin]; [rank] is that integer.  Comparisons of finite doubles
    are comparisons of their ranks. *)
Module Double.




End Double.

(** ** The server (lines 145-368 of [server.js]) *)

Module Server.

(** [natural.TfIdf]: the texts handed to [addDocument], in order. *)
Record TfIdf := { documents : list jsstring }.

(** The module-level variables the handlers share.  [fuse] is the
    collection the current [Fuse] instance was built over, [None] while
    the variable is still [null]. *)
Record state := {
  faqs : list faq;
  tfidf : TfIdf;
  fuse : option (list faq);
  failCount : Z
}.

Definition FAIL_LIMIT : Z := 3.

Definition TFIDF_STRONG : float := 0.3.
Definition TFIDF_WEAK : float := 0.2.
Definition TFIDF_SCORE_GAP : float := 0.08.
Definition FUSE_ACCEPT_THRESHOLD : float := 0.3.
(** The literal [0.05] of the ambiguity test. *)
Definition FUSE_AMBIGUITY : float := 0.05.

(** The process starts with empty indexes and no failure recorded. *)
Definition initial : state :=
  {| faqs := []; tfidf := {| documents := [] |}; fuse := None; failCount := 0 |}.

Definition escalation : jsstring :=
  lit "Sorry, I wasn't able to answer your question after multiple tries. Call 16221 (toll free) to reach our support team for further detailed help.".

Section WithExternals.
Context {E : Externals}.

(** *** Text preprocessing *)

(** The characters the cleaning step keeps: [a-z], the Bengali block,
    [0-9] and [\s]; every other one is replaced by a space. *)
Definition kept (c : N) : bool :=
  is_lower c || is_bengali c || is_digit c || is_ws c.

(** The callback of [tokens.map]. *)
Definition preprocess_token (tok : jsstring) : jsstring :=
  if existsb is_lower tok then
    if includes stopwords tok then [] else stem tok
  else tok.

(** [processed], the array [preprocess] joins. *)
Definition preprocess_tokens (text : jsstring) : list jsstring :=
  let normalized := toLowerCase (normalize_NFC text) in
  let cleaned := replace_outside kept normalized in
  let tokens := filter truthy (split_ws cleaned) in
  filter truthy (map preprocess_token tokens).

Definition preprocess (text : jsstring) : jsstring :=
  if negb (truthy text) then []
  else join (preprocess_tokens text).

(** A token that a second pass leaves alone: it consists of kept,
    non-blank characters and, when it holds a letter, it is no stop word
    and the stemmer maps it to itself. *)
Definition stable_token (t : jsstring) : Prop :=
  forallb (fun c => kept c && negb (is_ws c)) t = true /\
  (existsb is_lower t = true -> includes stopwords t = false /\ stem t = t).

(** *** WordNet query expansion *)

(** [expanded.add(x)]: a [Set] keeps insertion order and no duplicate. *)
Definition set_add (x : jsstring) (expanded : list jsstring) : list jsstring :=
  if includes expanded x then expanded else expanded ++ [x].

(** [new Set(words)] *)
Definition new_Set (words : list jsstring) : list jsstring :=
  fold_left (fun expanded w => set_add w expanded) words [].

(** [s.includes(" ")] *)
Definition has_space (s : jsstring) : bool := existsb (N.eqb space) s.

(** The lookup callback: every synonym of every result that has no
    space is added in lower case. *)
Definition add_synonyms (results : list wordnetResult)
           (expanded : list jsstring) : list jsstring :=
  fold_left
    (fun expanded r =>
       fold_left
         (fun expanded s =>
            if negb (has_space s) then set_add (toLowerCase s) expanded
            else expanded)
         (synonyms r) expanded)
    results expanded.

(** A word the lookup callback may add for the results [results]: the
    lower-case form of a synonym without a space. *)
Definition offered (results : list wordnetResult) (w : jsstring) : Prop :=
  exists r s, In r results /\ In s (synonyms r) /\ has_space s = false /\
              w = toLowerCase s.

(** The words [expandQuery] extracts from the query. *)
Definition query_words (query : jsstring) : list jsstring :=
  filter truthy
    (split_ws
       (replace_outside (fun c => is_lower c || is_ws c) (toLowerCase query))).

(** One awaited lookup; a lookup that throws is caught and adds
    nothing. *)
Definition lookup (word : jsstring) (expanded : list jsstring)
  : M (list jsstring) :=
  called (WordnetLookup word) ;;;
  ret (match wordnet_lookup word with
       | Some results => add_synonyms results expanded
       | None => expanded
       end).

(** The loop [for (const word of words)]. *)
Fixpoint lookup_all (words : list jsstring) (expanded : list jsstring)
  : M (list jsstring) :=
  match words with
  | [] => ret expanded
  | word :: rest =>
      expanded' <- lookup word expanded ;; lookup_all rest expanded'
  end.

(** The set [expanded] when the loop ends. *)
Definition expanded_set (query : jsstring) : M (list jsstring) :=
  let words := query_words query in
  lookup_all words (new_Set words).

Definition expandQuery (query : jsstring) : M jsstring :=
  if negb (truthy query) then ret []
  else expanded <- expanded_set query ;; ret (join expanded).

(** *** Core matching logic *)

(** The array [scores] after [tfidf.tfidfs(query, callback)] with the
    callback that pushes [{ index: i, score }]: one entry per document, in
    index order. *)
Definition scores (t : TfIdf) (query : jsstring) : list scored :=
  map (fun i => {| index := i; score := tfidf_measure (documents t) query i |})
      (seq 0 (List.length (documents t))).

Definition tfidfs (t : TfIdf) (query : jsstring) : M (list scored) :=
  called (TfidfTfidfs query) ;;; ret (scores t query).

(** The comparator [(a, b) => b.score - a.score]. *)
Definition by_score_desc (x y : scored) : float := (score y - score x)%float.

(** [faqs[i]] followed by a property read, which throws on
    [undefined]. *)
Definition faq_at (st : state) (i : nat) : M faq :=
  match nth_error (faqs st) i with
  | Some f => ret f
  | None => throw TypeError
  end.

(** [fuse.search(userQuestion, { limit: k })] *)
Definition search (st : state) (query : jsstring) (k : nat)
  : M (list Fuse.result) :=
  match fuse st with
  | None => throw TypeError
  | Some collection =>
      called (FuseSearch query k) ;;; ret (fuse_search collection query k)
  end.

(** The block under [FUZZY FALLBACK]. *)
Definition fuzzy_fallback (st : state) (userQuestion : jsstring) (k : nat)
  : M QueryResult :=
  fuseResults <- search st userQuestion k ;;
  let suggestions := map (fun r => q (Fuse.item r)) fuseResults in
  match fuseResults with
  | r0 :: rest =>
      if (Fuse.score r0 <=? FUSE_ACCEPT_THRESHOLD)%float then
        match rest with
        | r1 :: _ =>
            if (abs (Fuse.score r0 - Fuse.score r1) <? FUSE_AMBIGUITY)%float
            then ret {| answer := None; suggestions := suggestions |}
            else ret {| answer := Some (a (Fuse.item r0));
                        suggestions := suggestions |}
        | [] => ret {| answer := Some (a (Fuse.item r0));
                       suggestions := suggestions |}
        end
      else ret {| answer := None; suggestions := suggestions |}
  | [] => ret {| answer := None; suggestions := suggestions |}
  end.

(** [gap]: the distance to the second entry, or the top score itself
    when there is no second entry. *)
Definition gap_of (top : scored) (rest : list scored) : float :=
  match rest with
  | second :: _ => (score top - score second)%float
  | [] => score top
  end.

(** The block under [CONFIDENCE THRESHOLDS], then the fallback. *)
Definition decide (st : state) (userQuestion : jsstring) (k : nat)
           (best : list scored) : M QueryResult :=
  match best with
  | top :: rest =>
      let gap := gap_of top rest in
      if ((TFIDF_STRONG <=? score top) && (TFIDF_SCORE_GAP <=? gap))%float then
        f <- faq_at st (index top) ;;
        ret {| answer := Some (a f); suggestions := [] |}
      else if (TFIDF_WEAK <=? score top)%float then
        f <- faq_at st (index top) ;;
        qs <- mapM (fun b => f' <- faq_at st (index b) ;; ret (q f')) best ;;
        ret {| answer := Some (a f); suggestions := qs |}
      else fuzzy_fallback st userQuestion k
  | [] => fuzzy_fallback st userQuestion k
  end.

(** [`${processed} ${expansion}`.trim()] *)
Definition scoring_query (userQuestion : jsstring) : M jsstring :=
  let processed := preprocess userQuestion in
  raw <- expandQuery userQuestion ;;
  let expansion := preprocess raw in
  ret (trim (processed ++ space :: expansion)).

Definition findAnswers (st : state) (userQuestion : jsval) (k : nat)
  : M QueryResult :=
  if negb (js_truthy userQuestion) then
    ret {| answer := None; suggestions := [] |}
  else
    match userQuestion with
    | JString s =>
        if negb (truthy (trim s)) then
          ret {| answer := None; suggestions := [] |}
        else
          query <- scoring_query s ;;
          scores <- tfidfs (tfidf st) query ;;
          let best := firstn k (sort by_score_desc scores) in
          decide st s k best
    | _ => throw TypeError   (* [userQuestion.trim] is not a function *)
    end.

(** *** Notions the properties are stated with *)

(** The TF-IDF block returns: the top entry passes the strong test with
    the gap, or the weak test. *)
Definition tfidf_confident (best : list scored) : bool :=
  match best with
  | top :: rest =>
      ((TFIDF_STRONG <=? score top) && (TFIDF_SCORE_GAP <=? gap_of top rest)
       || (TFIDF_WEAK <=? score top))%float
  | [] => false
  end.

(** The question of entry [i] of the corpus. *)
Definition question_at (st : state) (i : nat) : jsstring :=
  match nth_error (faqs st) i with
  | Some f => q f
  | None => []
  end.

(** The TF-IDF index holds one document per corpus entry. *)
Definition aligned (st : state) : Prop :=
  List.length (documents (tfidf st)) = List.length (faqs st).

(** An empty, white-space-only or missing query string. *)
Definition blank (v : jsval) : bool :=
  match v with
  | JUndefined | JNull => true
  | JString s => forallb is_ws s
  | _ => false
  end.

(** *** The endpoints *)

Inductive body :=
| Result (r : QueryResult)
| Status (s : jsstring).

(** [res.status(code).json(payload)]; [res.json] answers 200. *)
Record response := { code : Z; payload : body }.

Definition json (b : body) : response := {| code := 200; payload := b |}.

Definition set_failCount (st : state) (n : Z) : state :=
  {| faqs := faqs st; tfidf := tfidf st; fuse := fuse st; failCount := n |}.

(** [if (result.answer)]: [null] and the empty string are falsy. *)
Definition has_answer (r : QueryResult) : bool :=
  match answer r with
  | Some s => truthy s
  | None => false
  end.

(** [app.post("/ask", ...)] with [question = req.body.question]. *)
Definition ask (st : state) (question : jsval) : state * response :=
  match outcome (findAnswers st question 3) with
  | Ok result =>
      if has_answer result then
        (set_failCount st 0, json (Result result))
      else
        let st' := set_failCount st (failCount st + 1) in
        if (FAIL_LIMIT <=? failCount st')%Z then
          (set_failCount st' 0,
           json (Result {| answer := Some escalation; suggestions := [] |}))
        else (st', json (Result result))
  | Throw _ =>
      (st, {| code := 500;
              payload := Result {| answer := None; suggestions := [] |} |})
  end.

(** *** The corpus file

    The regular expression of [loadFaqs],
    [/Q:\s*([^\n]+)\nA:\s*([\s\S]*?)(?=\nQ:|$)/g], as the backtracking
    matcher runs it. *)

Definition not_newline (c : N) : bool := negb (c =? newline)%N.

(** After [Q:], the part [\s*([^\n]+)\nA:].  The greedy [\s*] is tried
    longest first; [[^\n]+] must then run to the end of its line, hold a
    character, and be followed by a line feed and [A:].  The result is the
    first capture and the text after [A:]. *)
Fixpoint match_question (rest : jsstring) : option (jsstring * jsstring) :=
  let here :=
    match takeWhile not_newline rest with
    | [] => None
    | line =>
        match strip_prefix (newline :: lit "A:") (dropWhile not_newline rest) with
        | Some after => Some (line, after)
        | None => None
        end
    end in
  match rest with
  | c :: rest' =>
      if is_ws c then
        match match_question rest' with
        | Some m => Some m
        | None => here
        end
      else here
  | [] => here
  end.

(** The lazy [([\s\S]*?)(?=\nQ:|$)]: the shortest text that is followed by
    a line feed and [Q:] or by the end of the input; the result is the
    second capture and the text left. *)
Fixpoint match_answer (s : jsstring) : jsstring * jsstring :=
  match s with
  | [] => ([], [])
  | c :: s' =>
      match strip_prefix (newline :: lit "Q:") s with
      | Some _ => ([], s)
      | None => let (answer, tail) := match_answer s' in (c :: answer, tail)
      end
  end.

(** A match that starts at the head of [s]: the two captures and the text
    after the match. *)
Definition match_at (s : jsstring) : option (jsstring * jsstring * jsstring) :=
  match strip_prefix (lit "Q:") s with
  | Some rest =>
      match match_question rest with
      | Some (line, after) =>
          let (answer, tail) := match_answer (dropWhile is_ws after) in
          Some (line, answer, tail)
      | None => None
      end
  | None => None
  end.

(** The loop [while ((match = regex.exec(text)) !== null)]: each [exec]
    finds the leftmost match at or after [lastIndex], and [lastIndex]
    moves to the end of the match.  [skip] counts the characters of [s]
    that the last match still covers. *)
Fixpoint exec_all (s : jsstring) (skip : nat) : list (jsstring * jsstring) :=
  match s with
  | [] => []
  | _ :: s' =>
      match skip with
      | S n => exec_all s' n
      | O =>
          match match_at s with
          | Some (line, answer, tail) =>
              (line, answer)
                :: exec_all s' (List.length s - List.length tail - 1)
          | None => exec_all s' 0
          end
      end
  end.

(** The state [loadFaqs] leaves once the file is read: the loop pushes
    one entry and adds one document per match, then a [Fuse] is built over
    the entries. *)
Definition index_corpus (entries : list faq) (st : state) : state :=
  {| faqs := entries;
     tfidf := {| documents := map (fun f => preprocess (q f)) entries |};
     fuse := Some entries;
     failCount := failCount st |}.

(** [loadFaqs], given what [fs.readFileSync] yields: the file text, or
    [None] when it throws. *)
Definition loadFaqs (file : option jsstring) (st : state)
  : state * result unit :=
  match file with
  | None => (st, Throw IOError)
  | Some raw =>
      let text := replace_crlf raw in
      let entries :=
        map (fun m => {| q := trim (fst m); a := trim (snd m) |})
            (exec_all text 0) in
      (index_corpus entries st, Ok tt)
  end.

(** [app.get("/reload", ...)] *)
Definition reload (file : option jsstring) (st : state) : state * response :=
  match loadFaqs file st with
  | (st', Ok _) => (st', json (Status (lit "FAQ reloaded")))
  | (st', Throw _) =>
      (st', {| code := 500; payload := Status (lit "reload failed") |})
  end.

(** *** Notions for the corpus file and the loaded server *)

(** The indexes are those [loadFaqs] builds over the current corpus: one
    TF-IDF document per entry and a [Fuse] over the entries. *)
Definition ready (st : state) : Prop :=
  aligned st /\ fuse st = Some (faqs st).

Definition carriage_return : N := 13.

Definition not_return (c : N) : bool := negb (c =? carriage_return)%N.

(** White space at neither end; false for the empty string. *)
Definition tidy (s : jsstring) : bool :=
  negb (is_ws (hd space s)) && negb (is_ws (hd space (rev s))).

(** A line feed followed by [Q:] occurs in [s]. *)
Fixpoint has_block_start (s : jsstring) : bool :=
  match s with
  | [] => false
  | _ :: s' =>
      match strip_prefix (newline :: lit "Q:") s with
      | Some _ => true
      | None => has_block_start s'
      end
  end.

(** An entry that a corpus file can hold as it is: a one-line question
    and an answer with no line that starts a new block, both without white
    space at their ends and without carriage return. *)
Definition writable (f : faq) : bool :=
  tidy (q f) && forallb not_newline (q f) && forallb not_return (q f)
  && tidy (a f) && negb (has_block_start (a f)) && forallb not_return (a f).

(** The block of the corpus file for one entry. *)
Definition block (f : faq) : jsstring :=
  lit "Q: " ++ q f ++ newline :: lit "A: " ++ a f.

(** The corpus file that holds the entries, one block per entry. *)
Definition render (entries : list faq) : jsstring := lines (map block entries).

(** The loop invariant of the lookup callback: the set stays duplicate-free and
    only grows at its end. *)
Definition grows (before after : list jsstring) : Prop :=
  (NoDup before -> NoDup after) /\ exists added, after = before ++ added.

(** The text with every line feed written as carriage return, line
    feed. *)
Definition to_crlf (s : jsstring) : jsstring :=
  flat_map (fun c => if (c =? newline)%N then [carriage_return; newline] else [c]) s.

Inductive request :=
| Ask (question : jsval)
| Reload (file : option jsstring).

Definition handle (st : state) (r : request) : state * response :=
  match r with
  | Ask question => ask st question
  | Reload file => reload file st
  end.

(** The requests are handled one after the other: each handler touches
    the shared variables only in one synchronous stretch. *)
Fixpoint serve (st : state) (rs : list request) : state * list response :=
  match rs with
  | [] => (st, [])
  | r :: rs' =>
      let (st1, resp) := handle st r in
      let (st2, resps) := serve st1 rs' in
      (st2, resp :: resps)
  end.

End WithExternals.

End Server.

(** ** The variant with one threshold (lines 369-604 of [server.js])

    The file holds a second copy of the server that accepts a TF-IDF match
    on a single threshold and a fuzzy match without the ambiguity test.
    Its [preprocess], [/ask] and [/reload] are those of [Server]; its
    [expandQuery] normalises the query first, and its [findAnswers]
    differs. *)

Module ServerUnified.

Import Server.

Definition TFIDF_THRESHOLD : float := 0.15.
Definition FUSE_ACCEPT_THRESHOLD : float := 0.35.

Section WithExternals.
Context {E : Externals}.

Definition query_words (rawQuery : jsstring) : list jsstring :=
  filter truthy
    (split_ws
       (replace_outside (fun c => is_lower c || is_ws c)
          (toLowerCase (normalize_NFC rawQuery)))).

Definition expanded_set (rawQuery : jsstring) : M (list jsstring) :=
  let words := query_words rawQuery in
  lookup_all words (new_Set words).

Definition expandQuery (rawQuery : jsstring) : M jsstring :=
  if negb (truthy rawQuery) then ret []
  else expanded <- expanded_set rawQuery ;; ret (join expanded).

(** [`${processedQuestion} ${expansionProcessed}`.trim()] *)
Definition scoring_query (userQuestion : jsstring) : M jsstring :=
  let processedQuestion := preprocess userQuestion in
  expansionRaw <- expandQuery userQuestion ;;
  let expansionProcessed := preprocess expansionRaw in
  ret (trim (processedQuestion ++ space :: expansionProcessed)).

(** [faqs.slice(0, k).map((f) => f.q)] *)
Definition first_questions (st : state) (k : nat) : list jsstring :=
  map q (firstn k (faqs st)).

(** [best.map((s) => faqs[s.index]?.q).filter(Boolean)]: an index with no
    entry and an empty question are both dropped. *)
Definition best_questions (st : state) (best : list scored) : list jsstring :=
  filter truthy
    (map (fun s => match nth_error (faqs st) (index s) with
                   | Some f => q f
                   | None => []
                   end) best).

(** The part of [findAnswers] below the TF-IDF test. *)
Definition fuzzy_fallback (st : state) (userQuestion : jsstring) (k : nat)
  : M QueryResult :=
  match fuse st with
  | None => ret {| answer := None; suggestions := first_questions st k |}
  | Some collection =>
      called (FuseSearch userQuestion k) ;;;
      let fuseResults := fuse_search collection userQuestion k in
      let suggestions := firstn k (map (fun r => q (Fuse.item r)) fuseResults) in
      match fuseResults with
      | r0 :: _ =>
          if (Fuse.score r0 <=? FUSE_ACCEPT_THRESHOLD)%float then
            ret {| answer := Some (a (Fuse.item r0)); suggestions := suggestions |}
          else
            ret {| answer := None;
                   suggestions := if Nat.eqb (List.length suggestions) 0
                                  then first_questions st k else suggestions |}
      | [] =>
          ret {| answer := None;
                 suggestions := if Nat.eqb (List.length suggestions) 0
                                then first_questions st k else suggestions |}
      end
  end.

Definition decide (st : state) (userQuestion : jsstring) (k : nat)
           (best : list scored) : M QueryResult :=
  match best with
  | top :: _ =>
      if (TFIDF_THRESHOLD <=? score top)%float then
        f <- faq_at st (index top) ;;
        ret {| answer := Some (a f); suggestions := best_questions st best |}
      else fuzzy_fallback st userQuestion k
  | [] => fuzzy_fallback st userQuestion k
  end.

Definition findAnswers (st : state) (userQuestion : jsval) (k : nat)
  : M QueryResult :=
  if negb (js_truthy userQuestion) then
    ret {| answer := None; suggestions := [] |}
  else
    match userQuestion with
    | JString s =>
        if negb (truthy (trim s)) then
          ret {| answer := None; suggestions := [] |}
        else
          queryForTfidf <- scoring_query s ;;
          scores <- tfidfs (tfidf st) queryForTfidf ;;
          let best := firstn k (sort by_score_desc scores) in
          decide st s k best
    | _ => throw TypeError
    end.

End WithExternals.

End ServerUnified.

(** ** The first copy of the server (lines 1-144 of [server.js])

    The oldest copy has no Fuse index, no guard against a blank or missing
    question and no [try] around [findAnswers]; it removes punctuation
    instead of replacing it, and stems the synonyms it adds. *)

Module ServerFirst.

Record state := {
  faqs : list faq;
  tfidf : Server.TfIdf;
  failCount : Z
}.

Definition TFIDF_THRESHOLD : float := 0.15.

Definition initial : state :=
  {| faqs := []; tfidf := {| Server.documents := [] |}; failCount := 0 |}.

(** The message of the third failure: a person bowing (U+1F647, two code
    units), then the text, with a right single quotation mark (U+2019) in
    [wasn't]. *)
Definition escalation : jsstring :=
  [55357; 56903]%N ++ lit " Sorry, I wasn" ++ [8217%N]
  ++ lit "t able to answer your question after multiple tries. Please contact our support team for further help.".

(** [s.split(" ")]: the pieces between single spaces; two spaces in a row
    leave an empty piece. *)
Fixpoint split_space (s : jsstring) : list jsstring :=
  match s with
  | [] => [[]]
  | c :: s' =>
      if (c =? space)%N then [] :: split_space s'
      else match split_space s' with
           | t :: ts => (c :: t) :: ts
           | [] => [[c]]
           end
  end.

Section WithExternals.
Context {E : Externals}.

(** [text.toLowerCase().replace(/[^a-z0-9\s]/g, "")] and the rest of the
    chain: the other characters are removed, every piece of the split is
    kept (an empty one too), stop words are dropped and the rest is
    stemmed. *)
Definition preprocess (text : jsstring) : jsstring :=
  let cleaned :=
    filter (fun c => is_lower c || is_digit c || is_ws c) (toLowerCase text) in
  join (map stem
          (filter (fun word => negb (includes stopwords word))
                  (split_ws cleaned))).

(** The lookup callback: a synonym without a space is added lower-cased
    and stemmed. *)
Definition add_synonyms (results : list wordnetResult)
           (expanded : list jsstring) : list jsstring :=
  fold_left
    (fun expanded result =>
       fold_left
         (fun expanded syn =>
            if negb (Server.has_space syn)
            then Server.set_add (stem (toLowerCase syn)) expanded
            else expanded)
         (synonyms result) expanded)
    results expanded.

Definition lookup (word : jsstring) (expanded : list jsstring)
  : M (list jsstring) :=
  called (WordnetLookup word) ;;;
  ret (match wordnet_lookup word with
       | Some results => add_synonyms results expanded
       | None => expanded
       end).

Fixpoint lookup_all (words : list jsstring) (expanded : list jsstring)
  : M (list jsstring) :=
  match words with
  | [] => ret expanded
  | word :: rest =>
      expanded' <- lookup word expanded ;; lookup_all rest expanded'
  end.

Definition expandQuery (query : jsstring) : M jsstring :=
  let words := split_space query in
  expanded <- lookup_all words (Server.new_Set words) ;;
  ret (join expanded).

(** [faqs.slice(0, k).map((f) => f.q)] *)
Definition first_questions (st : state) (k : nat) : list jsstring :=
  map q (firstn k (faqs st)).

(** [best.map((s) => faqs[s.index]?.q).filter(Boolean)] *)
Definition best_questions (st : state) (best : list scored) : list jsstring :=
  filter truthy
    (map (fun s => match nth_error (faqs st) (index s) with
                   | Some f => q f
                   | None => []
                   end) best).

Definition faq_at (st : state) (i : nat) : M faq :=
  match nth_error (faqs st) i with
  | Some f => ret f
  | None => throw TypeError
  end.

(** [findAnswers]: a question that is not a string has no [toLowerCase]
    to call, so [preprocess] throws. *)
Definition findAnswers (st : state) (userQuestion : jsval) (k : nat)
  : M QueryResult :=
  match userQuestion with
  | JString s =>
      let processedQuestion := preprocess s in
      expanded <- expandQuery processedQuestion ;;
      scores <- Server.tfidfs (tfidf st) expanded ;;
      let best := firstn k (sort Server.by_score_desc scores) in
      match best with
      | [] => ret {| answer := None; suggestions := first_questions st k |}
      | top :: _ =>
          if (score top <? TFIDF_THRESHOLD)%float then
            ret {| answer := None; suggestions := first_questions st k |}
          else
            f <- faq_at st (index top) ;;
            ret {| answer := Some (a f); suggestions := best_questions st best |}
      end
  | _ => throw TypeError
  end.

Definition set_failCount (st : state) (n : Z) : state :=
  {| faqs := faqs st; tfidf := tfidf st; failCount := n |}.

(** [app.post("/ask", ...)]: the state the handler leaves with the body
    it sends with [res.json], or the exception of [findAnswers], which the
    handler does not catch: the [await] rethrows it as the first step of
    the handler, and the handler's promise rejects with it. *)
Definition ask (st : state) (question : jsval) : result (state * QueryResult) :=
  match outcome (findAnswers st question 3) with
  | Ok result =>
      if Server.has_answer result then Ok (set_failCount st 0, result)
      else
        let st' := set_failCount st (failCount st + 1) in
        if (Server.FAIL_LIMIT <=? failCount st')%Z then
          Ok (set_failCount st' 0,
              {| answer := Some escalation; suggestions := [] |})
        else Ok (st', result)
  | Throw e => Throw e
  end.

(** [loadFaqs]: the entries are parsed as in the later copies, then the
    TF-IDF index is rebuilt over the preprocessed questions. *)
Definition loadFaqs (file : option jsstring) (st : state)
  : state * result unit :=
  match file with
  | None => (st, Throw IOError)
  | Some raw =>
      let text := replace_crlf raw in
      let entries :=
        map (fun m => {| q := trim (fst m); a := trim (snd m) |})
            (Server.exec_all text 0) in
      ({| faqs := entries;
          tfidf := {| Server.documents := map (fun f => preprocess (q f)) entries |};
          failCount := failCount st |},
       Ok tt)
  end.

End WithExternals.

End ServerFirst.

(** ** A small implementation of the libraries, for running the server

    Stand-ins that behave like the libraries on the inputs used below:
    ASCII case folding, a stemmer that drops a plural [s], a few entries of
    the English stop-word list and of WordNet, term overlap as the TF-IDF
    measure and the share of unmatched query words as the fuzzy score. *)

Module Sample.

Definition lower_unit (c : N) : N :=
  if ((65 <=? c) && (c <=? 90))%N then (c + 32)%N else c.

(** [toLowerCase] on ASCII text. *)
Definition ascii_toLowerCase (s : jsstring) : jsstring := map lower_unit s.

(** Porter's step 1a on a word of three letters or more that ends in a
    single [s]: the [s] is dropped. *)
Definition plural_stem (t : jsstring) : jsstring :=
  match rev t with
  | 115%N :: c :: c' :: r =>
      if (c =? 115)%N then t else rev (c :: c' :: r)
  | _ => t
  end.

Definition english_stopwords : list jsstring :=
  map lit ["how"; "do"; "i"; "my"; "the"; "is"; "to"; "what"; "can"; "make";
           "get"; "and"; "a"]%string.

Definition wordnet_table (word : jsstring) : option (list wordnetResult) :=
  if JS.eqb word (lit "java") then
    Some [ {| synonyms := [lit "Java"] |};
           {| synonyms := [lit "coffee"; lit "java"] |} ]
  else if JS.eqb word (lit "web") then
    Some [ {| synonyms := [lit "World_Wide_Web"; lit "WWW"; lit "web"] |} ]
  else if JS.eqb word (lit "support") then
    Some [ {| synonyms := [lit "support"; lit "keep"; lit "financial support"] |} ]
  else Some [].

Definition words (s : jsstring) : list jsstring :=
  filter truthy (split_ws s).

Definition count (t : jsstring) (l : list jsstring) : nat :=
  List.length (filter (JS.eqb t) l).

Definition of_nat (n : nat) : float := of_uint63 (Uint63.of_Z (Z.of_nat n)).

(** The number of occurrences of the query's terms in document [i]. *)
Definition overlap (docs : list jsstring) (query : jsstring) (i : nat) : float :=
  let doc := words (nth i docs []) in
  of_nat (fold_right (fun t n => (count t doc + n)%nat) 0%nat (words query)).

(** The share of the query's words that the question lacks. *)
Definition distance (query : jsstring) (f : faq) : float :=
  let qw := words (ascii_toLowerCase query) in
  let fw := words (replace_outside (fun c => is_lower c || is_ws c)
                     (ascii_toLowerCase (q f))) in
  (of_nat (List.length (filter (fun w => negb (includes fw w)) qw))
   / of_nat (List.length qw))%float.

(** Candidates within Fuse's [threshold: 0.45], best first, at most
    [limit]. *)
Definition word_search (collection : list faq) (query : jsstring) (limit : nat)
  : list Fuse.result :=
  firstn limit
    (sort (fun x y => (Fuse.score x - Fuse.score y)%float)
       (filter (fun r => (Fuse.score r <=? 0.45)%float)
          (map (fun f => {| Fuse.item := f; Fuse.score := distance query f |})
             collection))).

Definition externals : Externals :=
  {| normalize_NFC := fun s => s;
     toLowerCase := ascii_toLowerCase;
     stopwords := english_stopwords;
     stem := plural_stem;
     wordnet_lookup := wordnet_table;
     tfidf_measure := overlap;
     fuse_search := word_search |}.

Definition password : faq :=
  {| q := lit "How do I reset my password?"; a := lit "Use the reset link." |}.

Definition support : faq :=
  {| q := lit "How do I contact support?"; a := lit "Call 16221." |}.

(** The corpus of the specification's example as a file [faq.txt]. *)
Definition faq_txt : jsstring :=
  lines [lit "Q: How do I reset my password?";
         lit "A: Use the reset link.";
         lit "";
         lit "Q: How do I contact support?";
         lit "A: Call 16221.";
         lit ""].

(** The server once [loadFaqs] has read [file] at start-up. *)
Definition started (file : jsstring) : Server.state :=
  fst (@Server.loadFaqs externals (Some file) Server.initial).

Definition loaded : Server.state := started faq_txt.

(** The first copy of the server once its [loadFaqs] has read the same
    file. *)
Definition first_loaded : ServerFirst.state :=
  fst (@ServerFirst.loadFaqs externals (Some faq_txt) ServerFirst.initial).

End Sample.


(** * Properties *)

Unset Implicit Arguments.

(** ** Computations *)

Lemma outcome_bind_Ok {A B} (m : M A) (f : A -> M B) (x : A) :
  outcome m = Ok x -> outcome (bind m f) = outcome (f x).
Proof.
  destruct m as [l r]; simpl; intros ->.
  unfold bind. destruct (f x); reflexivity.
Qed.

Lemma outcome_bind_Throw {A B} (m : M A) (f : A -> M B) (e : exn) :
  outcome m = Throw e -> outcome (bind m f) = Throw e.
Proof. destruct m as [l r]; simpl; intros ->. reflexivity. Qed.

Lemma outcome_called {B} (c : call) (k : M B) :
  outcome (called c ;;; k) = outcome k.
Proof. unfold bind, called. destruct k; reflexivity. Qed.

Lemma mapM_ret {A B} (f : A -> M B) (g : A -> B) (l : list A) :
  (forall x, In x l -> f x = ret (g x)) -> mapM f l = ret (map g l).
Proof.
  induction l as [|x l IH]; intros H; simpl; [reflexivity|].
  rewrite (H x (or_introl eq_refl)).
  rewrite IH; [reflexivity|].
  intros y Hy. apply H. right. exact Hy.
Qed.

(** ** Strings *)

Lemma dropWhile_all (p : N -> bool) (s : jsstring) :
  forallb p s = true -> dropWhile p s = [].
Proof.
  induction s as [|c s IH]; simpl; [reflexivity|].
  destruct (p c); simpl; [exact IH | discriminate].
Qed.

Lemma trim_blank (s : jsstring) : forallb is_ws s = true -> trim s = [].
Proof. intros H. unfold trim. rewrite (dropWhile_all _ _ H). reflexivity. Qed.

Lemma truthy_trim (s : jsstring) : truthy (trim s) = true -> truthy s = true.
Proof. destruct s; [discriminate | reflexivity]. Qed.

(** ** The corpus reload *)

Section Reload.
Context {E : Externals}.
Import Server.

(** C9.  When [fs.readFileSync] throws, [loadFaqs] throws before it has
    assigned anything: the state after the failed [/reload] is the state
    before it, so the FAQ list, the TF-IDF documents and the Fuse index are
    the previous ones, and the endpoint answers 500. *)
Theorem reload_failure_keeps_snapshot (st : state) :
  loadFaqs None st = (st, Throw IOError) /\
  fst (reload None st) = st /\
  faqs (fst (reload None st)) = faqs st /\
  tfidf (fst (reload None st)) = tfidf st /\
  fuse (fst (reload None st)) = fuse st /\
  code (snd (reload None st)) = 500%Z.
Proof. repeat split. Qed.

(** A reload that reads the file leaves one TF-IDF document per entry and
    a Fuse index over the same entries. *)
Lemma loadFaqs_aligned (raw : jsstring) (st : state) :
  let st' := fst (loadFaqs (Some raw) st) in
  aligned st' /\ fuse st' = Some (faqs st') /\ failCount st' = failCount st.
Proof.
  simpl. unfold aligned. simpl. rewrite length_map. auto.
Qed.

End Reload.

(** ** The failure counter *)

Section FailureCounter.
Context {E : Externals}.
Import Server.

Lemma failCount_set (st : state) (n : Z) : failCount (set_failCount st n) = n.
Proof. reflexivity. Qed.

(** What one [/ask] does to the counter and which body it sends, by the
    result of [findAnswers]. *)
Lemma ask_step (st : state) (question : jsval) (result : QueryResult) :
  outcome (findAnswers st question 3) = Ok result ->
  ask st question =
    if has_answer result then (set_failCount st 0, json (Result result))
    else if (failCount st + 1 <? FAIL_LIMIT)%Z
         then (set_failCount st (failCount st + 1), json (Result result))
         else (set_failCount st 0,
               json (Result {| answer := Some escalation; suggestions := [] |})).
Proof.
  intros H. unfold ask. rewrite H.
  destruct (has_answer result); [reflexivity|].
  rewrite failCount_set, Z.leb_antisym.
  destruct (failCount st + 1 <? FAIL_LIMIT)%Z; reflexivity.
Qed.

Lemma ask_throw (st : state) (question : jsval) (e : exn) :
  outcome (findAnswers st question 3) = Throw e ->
  ask st question =
    (st, {| code := 500; payload := Result {| answer := None; suggestions := [] |} |}).
Proof. intros H. unfold ask. now rewrite H. Qed.

Lemma ask_failCount_bound (st : state) (question : jsval) :
  (0 <= failCount st < FAIL_LIMIT)%Z ->
  (0 <= failCount (fst (ask st question)) < FAIL_LIMIT)%Z.
Proof.
  intros Hb. unfold FAIL_LIMIT in *.
  destruct (outcome (findAnswers st question 3)) as [result|e] eqn:Hr.
  - rewrite (ask_step _ _ _ Hr).
    destruct (has_answer result); simpl; [lia|].
    destruct (Z.ltb_spec (failCount st + 1) FAIL_LIMIT) as [Hlt|Hge];
      unfold FAIL_LIMIT in *; simpl; lia.
  - rewrite (ask_throw _ _ _ Hr). exact Hb.
Qed.

Lemma reload_failCount (file : option jsstring) (st : state) :
  failCount (fst (reload file st)) = failCount st.
Proof. destruct file; reflexivity. Qed.

Lemma handle_failCount_bound (st : state) (r : request) :
  (0 <= failCount st < FAIL_LIMIT)%Z ->
  (0 <= failCount (fst (handle st r)) < FAIL_LIMIT)%Z.
Proof.
  destruct r as [question|file]; simpl.
  - apply ask_failCount_bound.
  - now rewrite reload_failCount.
Qed.

Lemma serve_failCount_bound (rs : list request) (st : state) :
  (0 <= failCount st < FAIL_LIMIT)%Z ->
  (0 <= failCount (fst (serve st rs)) < FAIL_LIMIT)%Z.
Proof.
  revert st. induction rs as [|r rs IH]; intros st Hb; simpl; [exact Hb|].
  pose proof (handle_failCount_bound st r Hb) as H1.
  destruct (handle st r) as [st1 resp]. simpl in H1.
  specialize (IH st1 H1).
  destruct (serve st1 rs) as [st2 resps]. exact IH.
Qed.

(** C10.  Starting from the initial state, after any sequence of requests
    ([/ask] with any question, [/reload] with any outcome of the file read)
    the failure counter is at least 0 and below [FAIL_LIMIT]. *)
Theorem failCount_invariant (rs : list request) :
  (0 <= failCount (fst (serve initial rs)) < FAIL_LIMIT)%Z.
Proof. apply serve_failCount_bound. unfold FAIL_LIMIT. simpl. lia. Qed.

(** C2, amended.  After any sequence of [/ask] calls, a call whose result
    carries a truthy (non-null, non-empty) answer resets the counter to 0
    and sends the result; a call whose result has a null or empty answer
    increments the counter and sends the result while the incremented
    counter is below [FAIL_LIMIT], and otherwise sends the escalation
    message with no suggestion and leaves the counter at 0. *)
Theorem ask_counts_failures (questions : list jsval) (st0 : state)
        (question : jsval) (result : QueryResult) :
  let st := fst (serve st0 (map Ask questions)) in
  outcome (findAnswers st question 3) = Ok result ->
  let st' := fst (ask st question) in
  let sent := snd (ask st question) in
  if has_answer result then
    failCount st' = 0%Z /\ sent = json (Result result)
  else if (failCount st + 1 <? FAIL_LIMIT)%Z then
    failCount st' = (failCount st + 1)%Z /\ sent = json (Result result)
  else
    failCount st' = 0%Z /\
    sent = json (Result {| answer := Some escalation; suggestions := [] |}).
Proof.
  intros st Hr st' sent. subst st' sent. rewrite (ask_step _ _ _ Hr).
  destruct (has_answer result); [split; reflexivity|].
  destruct (failCount st + 1 <? FAIL_LIMIT)%Z; split; reflexivity.
Qed.

End FailureCounter.

Lemma ask_counts_failures_witness :
  let nonsense := JString (lit "xyzabc nonsense") in
  let st := fst (@Server.serve Sample.externals Sample.loaded
                   (map Server.Ask [nonsense; nonsense])) in
  outcome (@Server.findAnswers Sample.externals st nonsense 3)
    = Ok {| answer := None; suggestions := [] |} /\
  Server.failCount (fst (@Server.ask Sample.externals st nonsense)) = 0%Z /\
  snd (@Server.ask Sample.externals st nonsense)
    = Server.json (Server.Result {| answer := Some Server.escalation;
                                    suggestions := [] |}).
Proof.
  intros nonsense st.
  assert (H : outcome (@Server.findAnswers Sample.externals st nonsense 3)
              = Ok {| answer := None; suggestions := [] |})
    by (vm_compute; reflexivity).
  split; [exact H|].
  exact (@ask_counts_failures Sample.externals [nonsense; nonsense]
           Sample.loaded nonsense _ H).
Defined.

(** C2, as stated, fails: a corpus file that ends in [A:] loads an entry
    whose answer is the empty string; a question that matches it gets a
    non-null answer, yet [/ask] counts it as a failure. *)
Lemma ask_empty_answer_counts_as_failure :
  let st := Sample.started (lines [lit "Q: Where is the refund policy?"; lit "A:"]) in
  let question := JString (lit "refund policy") in
  Server.faqs st = [ {| q := lit "Where is the refund policy?"; a := [] |} ] /\
  exists result,
    outcome (@Server.findAnswers Sample.externals st question 3) = Ok result /\
    answer result <> None /\
    Server.failCount st = 0%Z /\
    Server.failCount (fst (@Server.ask Sample.externals st question)) = 1%Z.
Proof.
  intros st question. split; [vm_compute; reflexivity|].
  exists {| answer := Some []; suggestions := [] |}.
  repeat split; try (vm_compute; reflexivity).
  discriminate.
Qed.

(** ** Blank queries *)

Section Blank.
Context {E : Externals}.
Import Server.

Lemma findAnswers_blank (st : state) (v : jsval) (k : nat) :
  blank v = true ->
  findAnswers st v k = ret {| answer := None; suggestions := [] |}.
Proof.
  destruct v as [| |b|x|s|]; simpl; try discriminate; try reflexivity.
  intros H. unfold findAnswers. simpl.
  destruct (truthy s); [|reflexivity]. simpl.
  rewrite (trim_blank s H). reflexivity.
Qed.

(** C5, amended.  For an empty, white-space-only or missing question
    [findAnswers] returns a null answer and no suggestion without calling
    WordNet, the TF-IDF index or the Fuse index; [/ask] sends that result
    unless this failure makes the counter reach [FAIL_LIMIT], in which case
    it sends the escalation message. *)
Theorem ask_blank (st : state) (v : jsval) :
  blank v = true ->
  calls (findAnswers st v 3) = [] /\
  outcome (findAnswers st v 3) = Ok {| answer := None; suggestions := [] |} /\
  snd (ask st v) =
    json (Result (if (failCount st + 1 <? FAIL_LIMIT)%Z
                  then {| answer := None; suggestions := [] |}
                  else {| answer := Some escalation; suggestions := [] |})).
Proof.
  intros H. rewrite (findAnswers_blank st v 3 H).
  split; [reflexivity|]. split; [reflexivity|].
  rewrite (ask_step st v {| answer := None; suggestions := [] |})
    by (rewrite (findAnswers_blank st v 3 H); reflexivity).
  simpl. destruct (failCount st + 1 <? FAIL_LIMIT)%Z; reflexivity.
Qed.

End Blank.

Lemma ask_blank_witness :
  calls (@Server.findAnswers Sample.externals Sample.loaded (JString (lit "   ")) 3) = [] /\
  outcome (@Server.findAnswers Sample.externals Sample.loaded (JString (lit "   ")) 3)
    = Ok {| answer := None; suggestions := [] |} /\
  snd (@Server.ask Sample.externals Sample.loaded (JString (lit "   ")))
    = Server.json (Server.Result {| answer := None; suggestions := [] |}).
Proof.
  exact (@ask_blank Sample.externals Sample.loaded (JString (lit "   ")) eq_refl).
Defined.

(** C5, as stated, fails: the third blank question in a row is answered
    with the escalation message, not with a null answer. *)
Lemma third_blank_ask_escalates :
  let empty := JString [] in
  Server.blank empty = true /\
  snd (@Server.serve Sample.externals Sample.loaded
         (map Server.Ask [empty; empty; empty]))
  = [ Server.json (Server.Result {| answer := None; suggestions := [] |});
      Server.json (Server.Result {| answer := None; suggestions := [] |});
      Server.json (Server.Result {| answer := Some Server.escalation;
                                    suggestions := [] |}) ].
Proof. split; vm_compute; reflexivity. Qed.

(** ** Sorting *)

Lemma In_firstn {A} (x : A) (n : nat) (l : list A) :
  In x (firstn n l) -> In x l.
Proof.
  revert l. induction n as [|n IH]; intros [|y l]; simpl; try contradiction.
  intros [H|H]; [now left | right; now apply IH].
Qed.

Section SortFacts.
Variable A : Type.
Variable compare : A -> A -> float.

Lemma insert_In (x y : A) (l : list A) :
  In x (insert compare y l) <-> x = y \/ In x l.
Proof.
  induction l as [|z l IH]; simpl.
  - intuition.
  - destruct (0 <? compare y z)%float; simpl; [rewrite IH|]; intuition.
Qed.

Lemma sort_In (x : A) (l : list A) : In x (sort compare l) <-> In x l.
Proof.
  induction l as [|y l IH]; simpl; [reflexivity|].
  rewrite insert_In, IH. intuition.
Qed.

Lemma insert_length (y : A) (l : list A) :
  List.length (insert compare y l) = S (List.length l).
Proof.
  induction l as [|z l IH]; simpl; [reflexivity|].
  destruct (0 <? compare y z)%float; simpl; [now rewrite IH | reflexivity].
Qed.

Lemma sort_length (l : list A) : List.length (sort compare l) = List.length l.
Proof.
  induction l as [|y l IH]; simpl; [reflexivity|].
  now rewrite insert_length, IH.
Qed.

End SortFacts.

(** ** Matching on the TF-IDF index *)

Section Weighted.
Context {E : Externals}.
Import Server.

Lemma lookup_all_outcome (words expanded : list jsstring) :
  exists r, outcome (lookup_all words expanded) = Ok r.
Proof.
  revert expanded. induction words as [|w words IH]; intros expanded;
    cbn [lookup_all].
  - eexists; reflexivity.
  - rewrite (outcome_bind_Ok _ _ _ (eq_refl : outcome (lookup w expanded) = Ok _)).
    apply IH.
Qed.

Lemma expandQuery_outcome (query : jsstring) :
  exists r, outcome (expandQuery query) = Ok r.
Proof.
  unfold expandQuery. destruct (negb (truthy query)); [eexists; reflexivity|].
  unfold expanded_set.
  destruct (lookup_all_outcome (query_words query) (new_Set (query_words query)))
    as [r Hr].
  exists (join r). now rewrite (outcome_bind_Ok _ _ r Hr).
Qed.

(** The scoring string is always produced: no lookup makes the query
    fail. *)
Lemma scoring_query_outcome (s : jsstring) :
  exists query, outcome (scoring_query s) = Ok query.
Proof.
  unfold scoring_query. destruct (expandQuery_outcome s) as [r Hr].
  eexists. rewrite (outcome_bind_Ok _ _ r Hr). reflexivity.
Qed.

(** Past the blank test, [findAnswers] is the decision on the best
    [k] scores. *)
Lemma findAnswers_decide (st : state) (s query : jsstring) (k : nat) :
  truthy (trim s) = true ->
  outcome (scoring_query s) = Ok query ->
  outcome (findAnswers st (JString s) k) =
  outcome (decide st s k (firstn k (sort by_score_desc (scores (tfidf st) query)))).
Proof.
  intros Hs Hq. unfold findAnswers. simpl.
  rewrite (truthy_trim s Hs), Hs. simpl.
  rewrite (outcome_bind_Ok _ _ query Hq).
  destruct (decide st s k _); reflexivity.
Qed.

Lemma scores_index (t : TfIdf) (query : jsstring) (b : scored) :
  In b (scores t query) -> (index b < List.length (documents t))%nat.
Proof.
  unfold scores. rewrite in_map_iff. intros [i [<- Hi]].
  apply in_seq in Hi. simpl. lia.
Qed.

Lemma faq_at_aligned (st : state) (query : jsstring) (k : nat) (b : scored) :
  aligned st ->
  In b (firstn k (sort by_score_desc (scores (tfidf st) query))) ->
  exists f, nth_error (faqs st) (index b) = Some f.
Proof.
  intros Hal Hb. apply In_firstn, sort_In, scores_index in Hb.
  rewrite Hal in Hb. apply nth_error_Some in Hb.
  destruct (nth_error (faqs st) (index b)) as [f|]; [now exists f | contradiction].
Qed.

Lemma best_questions (st : state) (query : jsstring) (k : nat) :
  aligned st ->
  let best := firstn k (sort by_score_desc (scores (tfidf st) query)) in
  mapM (fun b => f' <- faq_at st (index b) ;; ret (q f')) best
  = ret (map (fun b => question_at st (index b)) best).
Proof.
  intros Hal best. apply mapM_ret. intros b Hb.
  destruct (faq_at_aligned st query k b Hal Hb) as [f Hf].
  unfold faq_at, question_at. rewrite Hf. reflexivity.
Qed.

(** The outcome of the threshold block when the best entries start with
    [top], by the two tests. *)
Lemma decide_outcome (st : state) (s query : jsstring) (k : nat)
      (top : scored) (rest : list scored) (f : faq) :
  aligned st ->
  firstn k (sort by_score_desc (scores (tfidf st) query)) = top :: rest ->
  nth_error (faqs st) (index top) = Some f ->
  outcome (decide st s k (firstn k (sort by_score_desc (scores (tfidf st) query)))) =
  if ((TFIDF_STRONG <=? score top) && (TFIDF_SCORE_GAP <=? gap_of top rest))%float
  then Ok {| answer := Some (a f); suggestions := [] |}
  else if (TFIDF_WEAK <=? score top)%float
       then Ok {| answer := Some (a f);
                  suggestions := map (fun b => question_at st (index b)) (top :: rest) |}
       else outcome (fuzzy_fallback st s k).
Proof.
  intros Hal Hbest Hf.
  pose proof (best_questions st query k Hal) as Hqs. cbv zeta in Hqs.
  rewrite Hbest in *. unfold decide.
  destruct ((TFIDF_STRONG <=? score top) && (TFIDF_SCORE_GAP <=? gap_of top rest))%float.
  - unfold faq_at. rewrite Hf. reflexivity.
  - destruct (TFIDF_WEAK <=? score top)%float; [|reflexivity].
    rewrite (outcome_bind_Ok (faq_at st (index top)) _ f)
      by (unfold faq_at; now rewrite Hf).
    rewrite Hqs. reflexivity.
Qed.

End Weighted.

(** ** Floating-point comparisons *)

Lemma SFcompare_antisym (x y : spec_float) :
  SFcompare y x = option_map CompOpp (SFcompare x y).
Proof.
  destruct x as [sx|sx| |sx mx ex], y as [sy|sy| |sy my ey]; simpl;
    try reflexivity;
    try (destruct sx; reflexivity); try (destruct sy; reflexivity);
    try (destruct sx, sy; reflexivity).
  destruct sx, sy; try reflexivity;
    rewrite (Z.compare_antisym ex ey); destruct (ex ?= ey)%Z; simpl;
    try reflexivity;
    rewrite (Pos.compare_cont_antisym mx my Eq); simpl;
    try rewrite CompOpp_involutive; reflexivity.
Qed.

(** [x <= y] excludes [y < x], also when an operand is [NaN]. *)
Lemma leb_ltb_false (x y : float) :
  (x <=? y)%float = true -> (y <? x)%float = false.
Proof.
  rewrite leb_spec, ltb_spec. unfold SFleb, SFltb.
  rewrite (SFcompare_antisym (Prim2SF x) (Prim2SF y)).
  destruct (SFcompare (Prim2SF x) (Prim2SF y)) as [[| |]|]; simpl;
    congruence.
Qed.

(** ** The fuzzy fallback *)

Section Fuzzy.
Context {E : Externals}.
Import Server.

Lemma decide_fallback (st : state) (s : jsstring) (k : nat) (best : list scored) :
  tfidf_confident best = false ->
  decide st s k best = fuzzy_fallback st s k.
Proof.
  unfold tfidf_confident, decide. destruct best as [|top rest]; [reflexivity|].
  intros H. apply orb_false_iff in H. destruct H as [H1 H2].
  now rewrite H1, H2.
Qed.

(** When the TF-IDF block does not answer, [findAnswers] is the fuzzy
    fallback. *)
Lemma findAnswers_fallback (st : state) (s query : jsstring) (k : nat) :
  truthy (trim s) = true ->
  outcome (scoring_query s) = Ok query ->
  tfidf_confident (firstn k (sort by_score_desc (scores (tfidf st) query))) = false ->
  outcome (findAnswers st (JString s) k) = outcome (fuzzy_fallback st s k).
Proof.
  intros Hs Hq Hc.
  rewrite (findAnswers_decide st s query k Hs Hq).
  now rewrite (decide_fallback st s k _ Hc).
Qed.

Lemma fuzzy_fallback_outcome (st : state) (s : jsstring) (k : nat)
      (collection : list faq) :
  fuse st = Some collection ->
  outcome (fuzzy_fallback st s k) =
  let fuseResults := fuse_search collection s k in
  let suggestions := map (fun r => q (Fuse.item r)) fuseResults in
  match fuseResults with
  | r0 :: rest =>
      if (Fuse.score r0 <=? FUSE_ACCEPT_THRESHOLD)%float then
        match rest with
        | r1 :: _ =>
            if (abs (Fuse.score r0 - Fuse.score r1) <? FUSE_AMBIGUITY)%float
            then Ok {| answer := None; suggestions := suggestions |}
            else Ok {| answer := Some (a (Fuse.item r0)); suggestions := suggestions |}
        | [] => Ok {| answer := Some (a (Fuse.item r0)); suggestions := suggestions |}
        end
      else Ok {| answer := None; suggestions := suggestions |}
  | [] => Ok {| answer := None; suggestions := suggestions |}
  end.
Proof.
  intros Hf. unfold fuzzy_fallback, search. rewrite Hf.
  rewrite (outcome_bind_Ok
             (called (FuseSearch s k) ;;; ret (fuse_search collection s k))
             _ (fuse_search collection s k) eq_refl).
  cbv zeta.
  destruct (fuse_search collection s k) as [|r0 [|r1 rest]]; try reflexivity.
  - destruct (Fuse.score r0 <=? FUSE_ACCEPT_THRESHOLD)%float; reflexivity.
  - destruct (Fuse.score r0 <=? FUSE_ACCEPT_THRESHOLD)%float; [|reflexivity].
    destruct (abs (Fuse.score r0 - Fuse.score r1) <? FUSE_AMBIGUITY)%float;
      reflexivity.
Qed.

(** C3.  When the TF-IDF block does not answer a non-blank question and
    Fuse returns the candidates [r0 :: rest]: if [r0]'s score is within
    [FUSE_ACCEPT_THRESHOLD] and differs from the second score by at least
    0.05 (or there is no second candidate), [findAnswers] returns [r0]'s
    answer with the candidates' questions as suggestions; if the first two
    scores are less than 0.05 apart, it returns a null answer with those
    questions as suggestions. *)
Theorem findAnswers_fuzzy
        (st : state) (s query : jsstring) (collection : list faq)
        (r0 : Fuse.result) (rest : list Fuse.result) :
  truthy (trim s) = true ->
  outcome (scoring_query s) = Ok query ->
  tfidf_confident (firstn 3 (sort by_score_desc (scores (tfidf st) query))) = false ->
  fuse st = Some collection ->
  fuse_search collection s 3 = r0 :: rest ->
  let candidates := map (fun r => q (Fuse.item r)) (r0 :: rest) in
  (forall r1 rest',
      rest = r1 :: rest' ->
      (Fuse.score r0 <=? FUSE_ACCEPT_THRESHOLD)%float = true ->
      (FUSE_AMBIGUITY <=? abs (Fuse.score r0 - Fuse.score r1))%float = true ->
      outcome (findAnswers st (JString s) 3)
      = Ok {| answer := Some (a (Fuse.item r0)); suggestions := candidates |}) /\
  (rest = [] ->
   (Fuse.score r0 <=? FUSE_ACCEPT_THRESHOLD)%float = true ->
   outcome (findAnswers st (JString s) 3)
   = Ok {| answer := Some (a (Fuse.item r0)); suggestions := candidates |}) /\
  (forall r1 rest',
      rest = r1 :: rest' ->
      (abs (Fuse.score r0 - Fuse.score r1) <? FUSE_AMBIGUITY)%float = true ->
      outcome (findAnswers st (JString s) 3)
      = Ok {| answer := None; suggestions := candidates |}).
Proof.
  intros Hs Hq Hc Hf Hres candidates. subst candidates.
  rewrite (findAnswers_fallback st s query 3 Hs Hq Hc).
  rewrite (fuzzy_fallback_outcome st s 3 collection Hf). cbv zeta.
  rewrite Hres.
  split; [|split].
  - intros r1 rest' -> Hacc Hfar.
    rewrite Hacc, (leb_ltb_false _ _ Hfar). reflexivity.
  - intros -> Hacc. rewrite Hacc. reflexivity.
  - intros r1 rest' -> Hnear. rewrite Hnear.
    destruct (Fuse.score r0 <=? FUSE_ACCEPT_THRESHOLD)%float; reflexivity.
Qed.

End Fuzzy.

Lemma findAnswers_fuzzy_witness :
  outcome (@Server.findAnswers Sample.externals Sample.loaded
             (JString (lit "how do i my")) 3)
  = Ok {| answer := Some (lit "Use the reset link.");
          suggestions := [lit "How do I reset my password?";
                          lit "How do I contact support?"] |} /\
  outcome (@Server.findAnswers Sample.externals Sample.loaded
             (JString (lit "how do i")) 3)
  = Ok {| answer := None;
          suggestions := [lit "How do I reset my password?";
                          lit "How do I contact support?"] |}.
Proof.
  split.
  - apply (proj1 (@findAnswers_fuzzy Sample.externals Sample.loaded
                    (lit "how do i my") []
                    [Sample.password; Sample.support]
                    {| Fuse.item := Sample.password; Fuse.score := 0 |}
                    [ {| Fuse.item := Sample.support; Fuse.score := 0.25 |} ]
                    eq_refl eq_refl eq_refl eq_refl eq_refl)
             {| Fuse.item := Sample.support; Fuse.score := 0.25 |} []);
      reflexivity.
  - apply (proj2 (proj2 (@findAnswers_fuzzy Sample.externals Sample.loaded
                    (lit "how do i") []
                    [Sample.password; Sample.support]
                    {| Fuse.item := Sample.password; Fuse.score := 0 |}
                    [ {| Fuse.item := Sample.support; Fuse.score := 0 |} ]
                    eq_refl eq_refl eq_refl eq_refl eq_refl))
             {| Fuse.item := Sample.support; Fuse.score := 0 |} []);
      reflexivity.
Defined.

(** ** The generic prompt when nothing matches *)

Section Unified.
Context {E : Externals}.
Import Server.

Lemma unified_expandQuery_outcome (rawQuery : jsstring) :
  exists r, outcome (ServerUnified.expandQuery rawQuery) = Ok r.
Proof.
  unfold ServerUnified.expandQuery.
  destruct (negb (truthy rawQuery)); [eexists; reflexivity|].
  unfold ServerUnified.expanded_set.
  destruct (lookup_all_outcome (ServerUnified.query_words rawQuery)
              (new_Set (ServerUnified.query_words rawQuery))) as [r Hr].
  exists (join r). now rewrite (outcome_bind_Ok _ _ r Hr).
Qed.

Lemma unified_scoring_query_outcome (s : jsstring) :
  exists query, outcome (ServerUnified.scoring_query s) = Ok query.
Proof.
  unfold ServerUnified.scoring_query.
  destruct (unified_expandQuery_outcome s) as [r Hr].
  eexists. rewrite (outcome_bind_Ok _ _ r Hr). reflexivity.
Qed.

Lemma unified_findAnswers_decide (st : state) (s query : jsstring) (k : nat) :
  truthy (trim s) = true ->
  outcome (ServerUnified.scoring_query s) = Ok query ->
  outcome (ServerUnified.findAnswers st (JString s) k) =
  outcome (ServerUnified.decide st s k
             (firstn k (sort by_score_desc (scores (tfidf st) query)))).
Proof.
  intros Hs Hq. unfold ServerUnified.findAnswers. simpl.
  rewrite (truthy_trim s Hs), Hs. simpl.
  rewrite (outcome_bind_Ok _ _ query Hq).
  destruct (ServerUnified.decide st s k _); reflexivity.
Qed.

(** In the one-threshold variant the claim C4 holds: when the TF-IDF test
    fails and the best Fuse candidate, if any, is above the acceptance
    threshold, the answer is null and the suggestions are the candidates'
    questions, or the first [k = 3] corpus questions when there is no
    candidate. *)
Lemma unified_findAnswers_no_candidate
      (st : state) (s query : jsstring) (collection : list faq) :
  truthy (trim s) = true ->
  outcome (ServerUnified.scoring_query s) = Ok query ->
  match firstn 3 (sort by_score_desc (scores (tfidf st) query)) with
  | top :: _ => (ServerUnified.TFIDF_THRESHOLD <=? score top)%float = false
  | [] => True
  end ->
  fuse st = Some collection ->
  match fuse_search collection s 3 with
  | r0 :: _ => (Fuse.score r0 <=? ServerUnified.FUSE_ACCEPT_THRESHOLD)%float = false
  | [] => True
  end ->
  outcome (ServerUnified.findAnswers st (JString s) 3) =
  Ok {| answer := None;
        suggestions :=
          match firstn 3 (map (fun r => q (Fuse.item r)) (fuse_search collection s 3)) with
          | [] => map q (firstn 3 (faqs st))
          | candidates => candidates
          end |}.
Proof.
  intros Hs Hq Hlow Hf Hfar.
  rewrite (unified_findAnswers_decide st s query 3 Hs Hq).
  assert (Hd : ServerUnified.decide st s 3
                 (firstn 3 (sort by_score_desc (scores (tfidf st) query)))
               = ServerUnified.fuzzy_fallback st s 3).
  { unfold ServerUnified.decide.
    destruct (firstn 3 (sort by_score_desc (scores (tfidf st) query)));
      [reflexivity | now rewrite Hlow]. }
  rewrite Hd. unfold ServerUnified.fuzzy_fallback. rewrite Hf.
  rewrite outcome_called. unfold ServerUnified.first_questions.
  destruct (fuse_search collection s 3) as [|r0 rest]; [reflexivity|].
  rewrite Hfar. reflexivity.
Qed.

End Unified.

(** C4 fails on the two-threshold [findAnswers]: for a question that
    matches nothing, Fuse returns no candidate and the suggestions are
    empty, where the one-threshold copy of the function suggests the first
    corpus questions. *)
Theorem findAnswers_no_candidate_no_prompt :
  let nonsense := lit "xyzabc nonsense" in
  @fuse_search Sample.externals [Sample.password; Sample.support] nonsense 3 = [] /\
  outcome (@Server.findAnswers Sample.externals Sample.loaded (JString nonsense) 3)
  = Ok {| answer := None; suggestions := [] |} /\
  outcome (@ServerUnified.findAnswers Sample.externals Sample.loaded (JString nonsense) 3)
  = Ok {| answer := None;
          suggestions := [lit "How do I reset my password?";
                          lit "How do I contact support?"] |}.
Proof. repeat split; vm_compute; reflexivity. Qed.

(** ** Splitting and joining *)

Lemma eqb_eq (x y : jsstring) : JS.eqb x y = true <-> x = y.
Proof.
  unfold JS.eqb. destruct (list_eq_dec N.eq_dec x y); split; congruence.
Qed.

Lemma includes_In (l : list jsstring) (s : jsstring) :
  includes l s = true <-> In s l.
Proof.
  unfold includes. rewrite existsb_exists. split.
  - intros [x [Hx He]]. apply eqb_eq in He. now subst.
  - intros H. exists s. split; [exact H | now apply eqb_eq].
Qed.

(** No piece of a split holds a white-space character. *)
Lemma split_ws_no_ws (s : jsstring) :
  Forall (fun t => forallb (fun c => negb (is_ws c)) t = true) (split_ws s).
Proof.
  induction s as [|c s IH]; simpl.
  - repeat constructor.
  - destruct (is_ws c) eqn:Hc.
    + destruct s as [|c' s']; [repeat constructor|].
      destruct (is_ws c'); [exact IH | constructor; [reflexivity | exact IH]].
    + destruct (split_ws s) as [|t ts]; [repeat constructor; simpl; now rewrite Hc|].
      inversion IH as [|? ? Ht Hts]; subst.
      constructor; [simpl; now rewrite Hc, Ht | exact Hts].
Qed.

Lemma has_space_no_ws (t : jsstring) :
  forallb (fun c => negb (is_ws c)) t = true -> Server.has_space t = false.
Proof.
  unfold Server.has_space. induction t as [|c t IH]; [reflexivity|].
  cbn [forallb existsb]. intros H.
  apply andb_true_iff in H. destruct H as [Hc Ht].
  rewrite (IH Ht), orb_false_r.
  destruct (N.eqb_spec space c) as [Heq|]; [subst c; discriminate Hc | reflexivity].
Qed.

(** ** Query expansion *)

Section Expansion.
Context {E : Externals}.
Import Server.

Lemma set_add_In (x y : jsstring) (expanded : list jsstring) :
  In x (set_add y expanded) <-> In x expanded \/ x = y.
Proof.
  unfold set_add. destruct (includes expanded y) eqn:Hi.
  - apply includes_In in Hi. split; [now left | intros [H| ->]; assumption].
  - rewrite in_app_iff. simpl. intuition.
Qed.

Lemma new_Set_acc_In (x : jsstring) (words acc : list jsstring) :
  In x (fold_left (fun expanded w => set_add w expanded) words acc)
  <-> In x acc \/ In x words.
Proof.
  revert acc. induction words as [|w words IH]; intros acc; simpl.
  - intuition.
  - rewrite IH, set_add_In. intuition.
Qed.

Lemma new_Set_In (x : jsstring) (words : list jsstring) :
  In x (new_Set words) <-> In x words.
Proof. unfold new_Set. rewrite new_Set_acc_In. simpl. intuition. Qed.

Lemma add_synonyms_one_In (x : jsstring) (syns expanded : list jsstring) :
  In x (fold_left
          (fun expanded s =>
             if negb (has_space s) then set_add (toLowerCase s) expanded
             else expanded) syns expanded)
  <-> In x expanded \/
      exists s, In s syns /\ has_space s = false /\ x = toLowerCase s.
Proof.
  revert expanded. induction syns as [|s syns IH]; intros expanded; simpl.
  - split; [now left | intros [H|[s [[] _]]]; exact H].
  - rewrite IH. destruct (has_space s) eqn:Hs; simpl.
    + split.
      * intros [H|[s' [H1 H2]]]; [now left | right; exists s'; tauto].
      * intros [H|[s' [[->|H1] [H2 H3]]]];
          [now left | congruence | right; exists s'; tauto].
    + rewrite set_add_In. split.
      * intros [[H| ->]|[s' [H1 H2]]];
          [now left | right; exists s; tauto | right; exists s'; tauto].
      * intros [H|[s' [[->|H1] [H2 ->]]]];
          [left; now left | left; now right | right; exists s'; tauto].
Qed.

Lemma add_synonyms_In (x : jsstring) (results : list wordnetResult)
      (expanded : list jsstring) :
  In x (add_synonyms results expanded) <-> In x expanded \/ offered results x.
Proof.
  unfold add_synonyms, offered.
  revert expanded. induction results as [|r results IH]; intros expanded; simpl.
  - split; [now left | intros [H|[r [s [[] _]]]]; exact H].
  - rewrite IH, add_synonyms_one_In. split.
    + intros [[H|[s Hs]]|[r' [s Hs]]].
      * now left.
      * right. exists r, s. tauto.
      * right. exists r', s. tauto.
    + intros [H|[r' [s [[->|Hr] Hs]]]].
      * left. now left.
      * left. right. exists s. tauto.
      * right. exists r', s. tauto.
Qed.

(** The words in the set once every word of [words] has been looked up. *)
Lemma lookup_all_In (x : jsstring) (words expanded r : list jsstring) :
  outcome (lookup_all words expanded) = Ok r ->
  (In x r <->
   In x expanded \/
   exists word results,
     In word words /\ wordnet_lookup word = Some results /\ offered results x).
Proof.
  revert expanded. induction words as [|w words IH]; intros expanded;
    cbn [lookup_all].
  - intros H. injection H as <-.
    split; [now left | intros [H|[word [results [[] _]]]]; exact H].
  - rewrite (outcome_bind_Ok _ _ _ (eq_refl : outcome (lookup w expanded) = Ok _)).
    intros H. rewrite (IH _ H). clear IH H.
    destruct (wordnet_lookup w) as [results|] eqn:Hw.
    + rewrite add_synonyms_In. split.
      * intros [[H|H]|[word [res [H1 H2]]]].
        -- now left.
        -- right. exists w, results. simpl. tauto.
        -- right. exists word, res. simpl. tauto.
      * intros [H|[word [res [[->|H1] [H2 H3]]]]].
        -- left. now left.
        -- left. right. congruence.
        -- right. exists word, res. tauto.
    + split.
      * intros [H|[word [res [H1 H2]]]]; [now left|].
        right. exists word, res. simpl. tauto.
      * intros [H|[word [res [[->|H1] [H2 H3]]]]]; [now left | congruence |].
        right. exists word, res. tauto.
Qed.

Lemma query_words_no_space (query w : jsstring) :
  In w (query_words query) -> has_space w = false.
Proof.
  unfold query_words. rewrite filter_In. intros [H _].
  apply has_space_no_ws.
  exact (proj1 (Forall_forall _ _) (split_ws_no_ws _) w H).
Qed.

(** C7, amended.  The set [expandQuery] builds holds every word extracted
    from the query; every other word of it is the lower-case form of a
    synonym without a space that WordNet returned for one of those words;
    and, as long as lower-casing introduces no space, no word of the set
    contains one.  The string returned is the set joined by spaces. *)
Theorem expandQuery_words (query : jsstring) (expanded : list jsstring) :
  outcome (expanded_set query) = Ok expanded ->
  (forall w, In w (query_words query) -> In w expanded) /\
  (forall w, In w expanded ->
     In w (query_words query) \/
     exists word results r s,
       In word (query_words query) /\ wordnet_lookup word = Some results /\
       In r results /\ In s (synonyms r) /\ has_space s = false /\
       w = toLowerCase s) /\
  ((forall s, has_space s = false -> has_space (toLowerCase s) = false) ->
   forall w, In w expanded -> has_space w = false) /\
  (truthy query = true -> outcome (expandQuery query) = Ok (join expanded)).
Proof.
  intros H. unfold expanded_set in H.
  assert (Hin : forall w, In w expanded <->
            In w (query_words query) \/
            exists word results,
              In word (query_words query) /\
              wordnet_lookup word = Some results /\ offered results w).
  { intros w. rewrite (lookup_all_In w _ _ _ H), new_Set_In. reflexivity. }
  split; [|split; [|split]].
  - intros w Hw. apply Hin. now left.
  - intros w Hw. apply Hin in Hw.
    destruct Hw as [Hw|[word [results [H1 [H2 [r [s H3]]]]]]]; [now left|].
    right. exists word, results, r, s. tauto.
  - intros Hlow w Hw. apply Hin in Hw.
    destruct Hw as [Hw|[word [results [H1 [H2 [r [s [H3 [H4 [H5 ->]]]]]]]]]].
    + exact (query_words_no_space query w Hw).
    + apply Hlow, H5.
  - intros Hq. unfold expandQuery. rewrite Hq. simpl negb. cbv iota.
    unfold expanded_set. now rewrite (outcome_bind_Ok _ _ expanded H).
Qed.

End Expansion.

Lemma expandQuery_words_witness :
  In (lit "banking")
     [lit "web"; lit "banking"; lit "world_wide_web"; lit "www"] /\
  outcome (@Server.expandQuery Sample.externals (lit "Web banking"))
  = Ok (lit "web banking world_wide_web www").
Proof.
  destruct (@expandQuery_words Sample.externals (lit "Web banking")
              [lit "web"; lit "banking"; lit "world_wide_web"; lit "www"]
              eq_refl) as [Hwords [_ [_ Hjoin]]].
  split.
  - apply Hwords. right. left. reflexivity.
  - apply Hjoin. reflexivity.
Defined.

(** C7, as stated, fails: for the question [web banking] the set gains
    the word [www], which is neither a word of the question nor one of the
    synonyms WordNet returned; the synonym returned is [WWW]. *)
Lemma expandQuery_adds_lower_cased_synonym :
  let query := lit "web banking" in
  outcome (@Server.expanded_set Sample.externals query)
  = Ok [lit "web"; lit "banking"; lit "world_wide_web"; lit "www"] /\
  @Server.query_words Sample.externals query = [lit "web"; lit "banking"] /\
  @wordnet_lookup Sample.externals (lit "web")
  = Some [ {| synonyms := [lit "World_Wide_Web"; lit "WWW"; lit "web"] |} ] /\
  @wordnet_lookup Sample.externals (lit "banking") = Some [] /\
  ~ In (lit "www") [lit "web"; lit "banking"] /\
  ~ In (lit "www") [lit "World_Wide_Web"; lit "WWW"; lit "web"].
Proof.
  repeat split; try (vm_compute; reflexivity);
    intros H; vm_compute in H; intuition discriminate.
Qed.

(** ** Normalisation *)

Lemma split_ws_token (t : jsstring) :
  forallb (fun c => negb (is_ws c)) t = true -> split_ws t = [t].
Proof.
  induction t as [|c t IH]; [reflexivity|].
  cbn [forallb]. intros H. apply andb_true_iff in H. destruct H as [Hc Ht].
  cbn [split_ws]. rewrite (IH Ht).
  apply negb_true_iff in Hc. now rewrite Hc.
Qed.

Lemma split_ws_token_space (t s : jsstring) (c : N) :
  forallb (fun c => negb (is_ws c)) t = true ->
  is_ws c = false ->
  split_ws (t ++ space :: c :: s) = t :: split_ws (c :: s).
Proof.
  intros Ht Hc. induction t as [|d t IH].
  - cbn [app]. change (split_ws (space :: c :: s))
      with (if is_ws space then
              if is_ws c then split_ws (c :: s) else [] :: split_ws (c :: s)
            else match split_ws (c :: s) with
                 | t :: ts => (space :: t) :: ts
                 | [] => [[space]]
                 end).
    rewrite Hc. reflexivity.
  - cbn [forallb] in Ht. apply andb_true_iff in Ht. destruct Ht as [Hd Ht].
    apply negb_true_iff in Hd.
    cbn [app]. cbn [split_ws]. fold (split_ws (t ++ space :: c :: s)).
    rewrite (IH Ht), Hd. reflexivity.
Qed.

Lemma join_cons (t t2 : jsstring) (ts : list jsstring) :
  join (t :: t2 :: ts) = t ++ space :: join (t2 :: ts).
Proof. reflexivity. Qed.

Lemma join_head (t : jsstring) (ts : list jsstring) :
  truthy t = true ->
  exists c t' r, t = c :: t' /\ join (t :: ts) = c :: r.
Proof.
  destruct t as [|c t']; [discriminate|]. intros _.
  exists c, t'. destruct ts; simpl; eexists; split; reflexivity.
Qed.

(** Splitting a join of non-empty, blank-free tokens gives the tokens
    back. *)
Lemma split_ws_join (ts : list jsstring) :
  ts <> [] ->
  Forall (fun t => truthy t = true /\
                   forallb (fun c => negb (is_ws c)) t = true) ts ->
  split_ws (join ts) = ts.
Proof.
  induction ts as [|t ts IH]; [congruence|].
  intros _ H. inversion H as [|? ? [Hne Ht] Hts]; subst.
  destruct ts as [|t2 ts]; [exact (split_ws_token t Ht)|].
  rewrite (join_cons t t2 ts).
  assert (IH' := IH ltac:(discriminate) Hts).
  inversion Hts as [|? ? [Hne2 Ht2] _]; subst.
  destruct (join_head t2 ts Hne2) as [c [t' [r [Heq Hr]]]].
  rewrite Hr in IH' |- *. rewrite Heq in Ht2.
  cbn [forallb] in Ht2. apply andb_true_iff in Ht2. destruct Ht2 as [Hc _].
  apply negb_true_iff in Hc.
  rewrite (split_ws_token_space t r c Ht Hc), IH'. reflexivity.
Qed.

Lemma filter_all {A} (p : A -> bool) (l : list A) :
  Forall (fun x => p x = true) l -> filter p l = l.
Proof.
  induction 1 as [|x l Hx _ IH]; simpl; [reflexivity|].
  now rewrite Hx, IH.
Qed.

Lemma map_fixed {A} (f : A -> A) (l : list A) :
  Forall (fun x => f x = x) l -> map f l = l.
Proof.
  induction 1 as [|x l Hx _ IH]; simpl; [reflexivity|].
  now rewrite Hx, IH.
Qed.

Lemma replace_outside_kept (keep : N -> bool) (s : jsstring) :
  forallb keep s = true -> replace_outside keep s = s.
Proof.
  unfold replace_outside.
  induction s as [|c s IH]; simpl; [reflexivity|].
  intros H. apply andb_true_iff in H. destruct H as [Hc Hs].
  now rewrite Hc, (IH Hs).
Qed.

Lemma join_kept (keep : N -> bool) (ts : list jsstring) :
  keep space = true ->
  Forall (fun t => forallb keep t = true) ts ->
  forallb keep (join ts) = true.
Proof.
  intros Hsp. induction 1 as [|t ts Ht Hts IH]; [reflexivity|].
  destruct ts as [|t2 ts]; [exact Ht|].
  change (forallb keep (t ++ space :: join (t2 :: ts)) = true).
  rewrite forallb_app. cbn [forallb]. now rewrite Ht, Hsp, IH.
Qed.

Lemma join_truthy (t : jsstring) (ts : list jsstring) :
  truthy t = true -> truthy (join (t :: ts)) = true.
Proof. destruct t; [discriminate|]. destruct ts; reflexivity. Qed.

Section Normalisation.
Context {E : Externals}.
Import Server.

Lemma preprocess_tokens_truthy (x : jsstring) :
  Forall (fun t => truthy t = true) (preprocess_tokens x).
Proof.
  unfold preprocess_tokens. apply Forall_forall. intros t Ht.
  apply filter_In in Ht. tauto.
Qed.

Lemma stable_token_fixed (t : jsstring) :
  stable_token t -> preprocess_token t = t.
Proof.
  intros [_ H]. unfold preprocess_token.
  destruct (existsb is_lower t); [|reflexivity].
  destruct (H eq_refl) as [-> ->]. reflexivity.
Qed.

Lemma forallb_weaken (p p' : N -> bool) (t : jsstring) :
  (forall c, p c = true -> p' c = true) ->
  forallb p t = true -> forallb p' t = true.
Proof.
  intros Hp. induction t as [|c t IH]; [reflexivity|].
  cbn [forallb]. intros H. apply andb_true_iff in H. destruct H as [Hc Ht].
  now rewrite (Hp c Hc), (IH Ht).
Qed.

(** A space-joined sequence of stable tokens is a fixed point of
    [preprocess], provided Unicode normalisation and lower-casing leave it
    unchanged. *)
Lemma preprocess_stable (ts : list jsstring) :
  toLowerCase (normalize_NFC (join ts)) = join ts ->
  Forall (fun t => truthy t = true) ts ->
  Forall stable_token ts ->
  preprocess (join ts) = join ts.
Proof.
  intros Hu Hne Hst. unfold preprocess.
  destruct ts as [|t ts]; [reflexivity|].
  inversion Hne as [|? ? Hne1 _]; subst.
  rewrite (join_truthy t ts Hne1). cbn [negb]. cbv iota.
  f_equal. unfold preprocess_tokens. rewrite Hu.
  assert (Hkept : Forall (fun t => forallb kept t = true) (t :: ts)).
  { apply Forall_forall. intros u Hin.
    destruct (proj1 (Forall_forall _ _) Hst u Hin) as [Hk _].
    apply (forallb_weaken _ _ u) with (2 := Hk).
    intros c Hc. apply andb_true_iff in Hc. tauto. }
  assert (Hnows : Forall (fun t => truthy t = true /\
                    forallb (fun c => negb (is_ws c)) t = true) (t :: ts)).
  { apply Forall_forall. intros u Hin. split.
    - exact (proj1 (Forall_forall _ _) Hne u Hin).
    - destruct (proj1 (Forall_forall _ _) Hst u Hin) as [Hk _].
      apply (forallb_weaken _ _ u) with (2 := Hk).
      intros c Hc. apply andb_true_iff in Hc. tauto. }
  rewrite (replace_outside_kept kept (join (t :: ts))
             (join_kept kept (t :: ts) eq_refl Hkept)).
  rewrite (split_ws_join (t :: ts) ltac:(discriminate) Hnows).
  rewrite (filter_all truthy (t :: ts) Hne).
  rewrite (map_fixed preprocess_token (t :: ts)).
  - exact (filter_all truthy (t :: ts) Hne).
  - apply Forall_forall. intros u Hin. apply stable_token_fixed.
    exact (proj1 (Forall_forall _ _) Hst u Hin).
Qed.

(** C6, amended.  Normalising twice gives the same text as normalising
    once for every input whose normalised tokens are stable (each made of
    kept characters and, when it holds a letter, no stop word and its own
    stem) and whose normalised text is already in NFC and lower case. *)
Theorem preprocess_idempotent_on_stable (x : jsstring) :
  toLowerCase (normalize_NFC (preprocess x)) = preprocess x ->
  Forall stable_token (preprocess_tokens x) ->
  preprocess (preprocess x) = preprocess x.
Proof.
  intros Hu Hst. destruct (truthy x) eqn:Hx.
  - assert (Hp : preprocess x = join (preprocess_tokens x))
      by (unfold preprocess; now rewrite Hx).
    rewrite Hp in Hu |- *.
    exact (preprocess_stable (preprocess_tokens x) Hu
             (preprocess_tokens_truthy x) Hst).
  - assert (Hp : preprocess x = [])
      by (unfold preprocess; now rewrite Hx).
    rewrite Hp. reflexivity.
Qed.

End Normalisation.

Lemma preprocess_idempotent_on_stable_witness :
  @Server.preprocess Sample.externals (lit "How do I reset my Passwords?")
  = lit "reset password" /\
  @Server.preprocess Sample.externals (lit "reset password")
  = lit "reset password".
Proof.
  split; [reflexivity|].
  apply (@preprocess_idempotent_on_stable Sample.externals
           (lit "How do I reset my Passwords?") eq_refl).
  repeat constructor; intros _; reflexivity.
Defined.

(** C6, as stated, fails: the stem of [makes] is the stop word [make], so
    a second pass removes what the first pass produced. *)
Lemma preprocess_not_idempotent :
  @stem Sample.externals (lit "makes") = lit "make" /\
  includes (@stopwords Sample.externals) (lit "make") = true /\
  @Server.preprocess Sample.externals (lit "makes") = lit "make" /\
  @Server.preprocess Sample.externals
    (@Server.preprocess Sample.externals (lit "makes")) = [] /\
  @Server.preprocess Sample.externals
    (@Server.preprocess Sample.externals (lit "makes"))
  <> @Server.preprocess Sample.externals (lit "makes").
Proof. repeat split; try reflexivity. discriminate. Qed.

(** ** The order of the suggestions *)

(** The sign of a rounded number is the sign it was given. *)
Lemma binary_round_sign (sx : bool) (m : positive) (e : Z) :
  match binary_round prec emax sx m e with
  | S754_zero s | S754_infinity s | S754_finite s _ _ => s = sx
  | S754_nan => True
  end.
Proof.
  unfold binary_round, binary_round_aux.
  destruct (shl_align m e _) as [mz ez].
  destruct (shr_fexp prec emax (Z.pos mz) ez loc_Exact) as [mrs e'].
  destruct (shr_fexp prec emax _ e' loc_Exact) as [mrs' e''].
  destruct (shr_m mrs'); try exact I; try reflexivity.
  destruct (e'' <=? emax - prec)%Z; reflexivity.
Qed.

Lemma binary_normalize_positive (m e : Z) :
  SFltb (S754_zero false) (binary_normalize prec emax m e false) = true ->
  (0 < m)%Z.
Proof.
  destruct m as [|p|p]; simpl; [discriminate | lia |].
  pose proof (binary_round_sign true p e) as H.
  destruct (binary_round prec emax true p e) as [s|s| |s mf ef];
    try discriminate; subst s; discriminate.
Qed.

Lemma binary_normalize_not_positive (m e : Z) :
  (m < 0)%Z ->
  SFltb (S754_zero false) (binary_normalize prec emax m e false) = false.
Proof.
  destruct m as [|p|p]; try lia. intros _. simpl.
  pose proof (binary_round_sign true p e) as H.
  destruct (binary_round prec emax true p e) as [s|s| |s mf ef];
    try reflexivity; subst s; reflexivity.
Qed.

(** [x - y] and [y - x] are not both positive. *)
Lemma SFsub_positive_antisym (x y : spec_float) :
  SFltb (S754_zero false) (SF64sub x y) = true ->
  SFltb (S754_zero false) (SF64sub y x) = false.
Proof.
  unfold SF64sub.
  destruct x as [sx|sx| |sx mx ex], y as [sy|sy| |sy my ey];
    try (simpl; (discriminate || reflexivity));
    try (destruct sx; simpl; (discriminate || reflexivity));
    try (destruct sy; simpl; (discriminate || reflexivity));
    try (destruct sx, sy; simpl; (discriminate || reflexivity)).
  unfold SFsub. intros H. apply binary_normalize_positive in H.
  apply binary_normalize_not_positive.
  rewrite (Z.min_comm ey ex). lia.
Qed.

Lemma sub_positive_antisym (x y : float) :
  (0 <? x - y)%float = true -> (0 <? y - x)%float = false.
Proof.
  rewrite !ltb_spec, !sub_spec.
  change (Prim2SF 0) with (S754_zero false).
  apply SFsub_positive_antisym.
Qed.

(** ** The order of finite doubles *)

Section DoubleOrder.
Local Open Scope Z_scope.


















Section FiniteDoubles.
Variables x y : float.
Hypothesis finite_x : is_finite x = true.
Hypothesis finite_y : is_finite y = true.



End FiniteDoubles.

End DoubleOrder.

Section SortedFacts.
Variable A : Type.
Variable compare : A -> A -> float.
Hypothesis compare_antisym :
  forall x y, (0 <? compare x y)%float = true -> (0 <? compare y x)%float = false.

Lemma insert_HdRel (x z : A) (l : list A) :
  (in_order compare) z x -> HdRel (in_order compare) z l -> HdRel (in_order compare) z (insert compare x l).
Proof.
  intros Hzx Hl. destruct l as [|y l]; simpl; [now constructor|].
  destruct (0 <? compare x y)%float.
  - constructor. now inversion Hl.
  - now constructor.
Qed.

Lemma insert_Sorted (x : A) (l : list A) :
  Sorted (in_order compare) l -> Sorted (in_order compare) (insert compare x l).
Proof.
  induction 1 as [|y l Hl IH Hy]; simpl; [repeat constructor|].
  destruct (0 <? compare x y)%float eqn:Hxy.
  - constructor; [exact IH|].
    apply insert_HdRel; [|exact Hy].
    exact (compare_antisym x y Hxy).
  - constructor; [now constructor | now constructor].
Qed.

Lemma sort_Sorted (l : list A) : Sorted (in_order compare) (sort compare l).
Proof.
  induction l as [|x l IH]; simpl; [constructor | now apply insert_Sorted].
Qed.

Lemma firstn_Sorted (n : nat) (l : list A) :
  Sorted (in_order compare) l -> Sorted (in_order compare) (firstn n l).
Proof.
  intros H. revert n. induction H as [|y l Hl IH Hy]; intros [|n]; simpl;
    try constructor.
  - apply IH.
  - destruct Hy as [|z l' Hz]; destruct n; simpl; now constructor.
Qed.

End SortedFacts.

(** ** The best entries *)

Section Ranked.
Variable A : Type.
Variable compare : A -> A -> float.
Variable key : A -> Z.
Variable known : A -> Prop.
Hypothesis compare_key :
  forall x y, known x -> known y ->
              (0 <? compare x y)%float = (key x <? key y)%Z.





End Ranked.

Section Prefix.
Variable A : Type.
Variables R R' : A -> A -> Prop.





End Prefix.

Section Ranking.
Context {E : Externals}.
Import Server.





End Ranking.


Section Suggestions.
Context {E : Externals}.
Import Server.

(** C8, amended.  For a non-blank question on a loaded server the
    suggestions are: none when the TF-IDF match is strong; for a weak
    match, the questions of the best (at most 3) entries, one per entry,
    in the order the sort by descending score leaves them; otherwise the
    questions of the Fuse candidates, one per candidate, in the order Fuse
    returned them.  No entry of the sorted scores is followed by one the
    comparator ranks before it.  Nothing removes a repeated question. *)
Theorem suggestions_in_score_order
        (st : state) (s query : jsstring) (collection : list faq) :
  aligned st ->
  fuse st = Some collection ->
  truthy (trim s) = true ->
  outcome (scoring_query s) = Ok query ->
  let best := firstn 3 (sort by_score_desc (scores (tfidf st) query)) in
  Sorted (in_order by_score_desc) best /\
  exists result,
    outcome (findAnswers st (JString s) 3) = Ok result /\
    suggestions result =
      match best with
      | top :: rest =>
          if ((TFIDF_STRONG <=? score top)
              && (TFIDF_SCORE_GAP <=? gap_of top rest))%float
          then []
          else if (TFIDF_WEAK <=? score top)%float
               then map (fun b => question_at st (index b)) best
               else map (fun r => q (Fuse.item r)) (fuse_search collection s 3)
      | [] => map (fun r => q (Fuse.item r)) (fuse_search collection s 3)
      end.
Proof.
  intros Hal Hf Hs Hq best. split.
  - apply firstn_Sorted, sort_Sorted.
    intros x y. apply sub_positive_antisym.
  - assert (Hfz : exists result,
               outcome (fuzzy_fallback st s 3) = Ok result /\
               suggestions result
               = map (fun r => q (Fuse.item r)) (fuse_search collection s 3)).
    { rewrite (fuzzy_fallback_outcome st s 3 collection Hf). cbv zeta.
      destruct (fuse_search collection s 3) as [|r0 [|r1 rest]];
        repeat match goal with
               | |- context [if ?b then _ else _] => destruct b
               end; eexists; split; reflexivity. }
    rewrite (findAnswers_decide st s query 3 Hs Hq). fold best.
    destruct best as [|top rest] eqn:Hbest.
    + exact Hfz.
    + destruct (faq_at_aligned st query 3 top Hal) as [f Hft].
      { fold best. rewrite Hbest. now left. }
      pose proof (decide_outcome st s query 3 top rest f Hal Hbest Hft) as Hd.
      fold best in Hd. rewrite Hbest in Hd. rewrite Hd.
      destruct ((TFIDF_STRONG <=? score top)
                && (TFIDF_SCORE_GAP <=? gap_of top rest))%float;
        [eexists; split; reflexivity|].
      destruct (TFIDF_WEAK <=? score top)%float;
        [eexists; split; reflexivity | exact Hfz].
Qed.

End Suggestions.

Lemma suggestions_in_score_order_witness :
  exists result,
    outcome (@Server.findAnswers Sample.externals Sample.loaded
               (JString (lit "contact reset")) 3) = Ok result /\
    suggestions result
    = [lit "How do I reset my password?"; lit "How do I contact support?"].
Proof.
  exact (proj2 (@suggestions_in_score_order Sample.externals Sample.loaded
                  (lit "contact reset") (lit "contact reset contact reset")
                  [Sample.password; Sample.support]
                  eq_refl eq_refl eq_refl eq_refl)).
Defined.

(** C8, as stated, fails: two entries with the same question text both
    reach the suggestions, which then hold that question twice. *)
Lemma suggestions_repeat_duplicate_question :
  let st := Sample.started
              (lines [lit "Q: How do I reset my password?";
                      lit "A: Use the reset link.";
                      lit "Q: How do I reset my password?";
                      lit "A: Ask at any branch."]) in
  outcome (@Server.findAnswers Sample.externals st (JString (lit "reset password")) 3)
  = Ok {| answer := Some (lit "Use the reset link.");
          suggestions := [lit "How do I reset my password?";
                          lit "How do I reset my password?"] |} /\
  ~ NoDup [lit "How do I reset my password?"; lit "How do I reset my password?"].
Proof.
  split; [vm_compute; reflexivity|].
  intros H. inversion H as [|? ? Hnin _]; subst. apply Hnin. now left.
Qed.

(** ** Further properties *)

Lemma calls_bind_Ok {A B} (m : M A) (f : A -> M B) (x : A) :
  outcome m = Ok x -> calls (bind m f) = calls m ++ calls (f x).
Proof.
  destruct m as [l r]; simpl; intros ->.
  unfold bind. destruct (f x); reflexivity.
Qed.

Section Calls.
Context {E : Externals}.
Import Server.

Lemma lookup_all_calls (words expanded : list jsstring) :
  calls (lookup_all words expanded) = map WordnetLookup words.
Proof.
  revert expanded. induction words as [|w words IH]; intros expanded;
    cbn [lookup_all map]; [reflexivity|].
  rewrite (calls_bind_Ok _ _ _ (eq_refl : outcome (lookup w expanded) = Ok _)).
  rewrite IH. reflexivity.
Qed.

Lemma scoring_query_calls (s : jsstring) :
  truthy s = true ->
  calls (scoring_query s) = map WordnetLookup (query_words s).
Proof.
  intros Hs. unfold scoring_query.
  destruct (expandQuery_outcome s) as [r Hr].
  rewrite (calls_bind_Ok _ _ r Hr). simpl. rewrite app_nil_r.
  unfold expandQuery. rewrite Hs. simpl negb. cbv iota.
  unfold expanded_set.
  destruct (lookup_all_outcome (query_words s) (new_Set (query_words s)))
    as [r' Hr'].
  rewrite (calls_bind_Ok _ _ r' Hr'). simpl. rewrite app_nil_r.
  apply lookup_all_calls.
Qed.

(** The Fuse index is not consulted when the TF-IDF block answers: the
    calls of [findAnswers] are then one WordNet lookup per extracted word
    followed by the TF-IDF scoring. *)
Theorem confident_answer_skips_fuse (st : state) (s query : jsstring) :
  aligned st ->
  truthy (trim s) = true ->
  outcome (scoring_query s) = Ok query ->
  tfidf_confident (firstn 3 (sort by_score_desc (scores (tfidf st) query))) = true ->
  calls (findAnswers st (JString s) 3)
  = map WordnetLookup (query_words s) ++ [TfidfTfidfs query].
Proof.
  intros Hal Hs Hq Hc. unfold findAnswers. simpl js_truthy.
  rewrite (truthy_trim s Hs), Hs. simpl negb. cbv iota.
  rewrite (calls_bind_Ok _ _ query Hq).
  rewrite (scoring_query_calls s (truthy_trim s Hs)). f_equal.
  rewrite (calls_bind_Ok (tfidfs (tfidf st) query) _ (scores (tfidf st) query) eq_refl).
  simpl calls at 1.
  pose proof (best_questions st query 3 Hal) as Hqs. cbv zeta in Hqs.
  destruct (firstn 3 (sort by_score_desc (scores (tfidf st) query)))
    as [|top rest] eqn:Hbest; [discriminate Hc|].
  destruct (faq_at_aligned st query 3 top Hal) as [f Hf];
    [rewrite Hbest; now left|].
  unfold tfidf_confident in Hc. unfold decide.
  destruct ((TFIDF_STRONG <=? score top) && (TFIDF_SCORE_GAP <=? gap_of top rest))%float.
  - unfold faq_at. rewrite Hf. reflexivity.
  - simpl in Hc. rewrite Hc. unfold faq_at at 1. rewrite Hf.
    unfold bind at 1. unfold ret at 1.
    rewrite Hqs. reflexivity.
Qed.

End Calls.

Lemma confident_answer_skips_fuse_witness :
  calls (@Server.findAnswers Sample.externals Sample.loaded
           (JString (lit "reset password")) 3)
  = [WordnetLookup (lit "reset"); WordnetLookup (lit "password");
     TfidfTfidfs (lit "reset password reset password")].
Proof.
  exact (@confident_answer_skips_fuse Sample.externals Sample.loaded
           (lit "reset password") (lit "reset password reset password")
           eq_refl eq_refl eq_refl eq_refl).
Defined.

Lemma unified_findAnswers_no_candidate_witness :
  outcome (@ServerUnified.findAnswers Sample.externals Sample.loaded
             (JString (lit "xyzabc nonsense")) 3)
  = Ok {| answer := None;
          suggestions := [lit "How do I reset my password?";
                          lit "How do I contact support?"] |}.
Proof.
  exact (@unified_findAnswers_no_candidate Sample.externals Sample.loaded
           (lit "xyzabc nonsense") (lit "xyzabc nonsense xyzabc nonsense")
           [Sample.password; Sample.support]
           eq_refl eq_refl eq_refl eq_refl I).
Defined.

(** The loop of [loadFaqs] on a file of two entries: the second capture
    runs to the line feed before the next [Q:], and [trim] removes the
    blank line. *)
Example loadFaqs_sample :
  Server.faqs Sample.loaded = [Sample.password; Sample.support] /\
  Server.exec_all (lines [lit "Q:   "; lit "A: x"]) 0 = [(lit " ", lit "x")] /\
  Server.exec_all (lines [lit "Q: no answer"; lit "Q: z"; lit "A: last"]) 0
  = [(lit "z", lit "last")].
Proof. repeat split; vm_compute; reflexivity. Qed.

Section Escalation.
Context {E : Externals}.
Import Server.

(** [findAnswers] does not read the failure counter. *)
Lemma findAnswers_set_failCount (st : state) (n : Z) (question : jsval) (k : nat) :
  findAnswers (set_failCount st n) question k = findAnswers st question k.
Proof. reflexivity. Qed.

(** Three no-answer outcomes in a row, counted from 0: the first two calls
    send their own results, the third sends the escalation message, and
    the counter is back at 0. *)
Theorem third_consecutive_failure_escalates
        (st : state) (q1 q2 q3 : jsval) (r1 r2 r3 : QueryResult) :
  failCount st = 0%Z ->
  outcome (findAnswers st q1 3) = Ok r1 -> has_answer r1 = false ->
  outcome (findAnswers st q2 3) = Ok r2 -> has_answer r2 = false ->
  outcome (findAnswers st q3 3) = Ok r3 -> has_answer r3 = false ->
  serve st [Ask q1; Ask q2; Ask q3]
  = (st, [json (Result r1); json (Result r2);
          json (Result {| answer := Some escalation; suggestions := [] |})]).
Proof.
  intros H0 H1 N1 H2 N2 H3 N3.
  assert (A1 : ask st q1 = (set_failCount st 1, json (Result r1))).
  { rewrite (ask_step st q1 r1 H1), N1, H0. reflexivity. }
  assert (A2 : ask (set_failCount st 1) q2
               = (set_failCount st 2, json (Result r2))).
  { rewrite (ask_step (set_failCount st 1) q2 r2 H2), N2. reflexivity. }
  assert (A3 : ask (set_failCount st 2) q3
               = (set_failCount st 0,
                  json (Result {| answer := Some escalation; suggestions := [] |}))).
  { rewrite (ask_step (set_failCount st 2) q3 r3 H3), N3. reflexivity. }
  cbn [serve handle]. rewrite A1, A2, A3.
  destruct st as [fs t fu n]. simpl in H0. subst n. reflexivity.
Qed.

End Escalation.

Lemma third_consecutive_failure_escalates_witness :
  let nonsense := JString (lit "xyzabc nonsense") in
  @Server.serve Sample.externals Sample.loaded
    [Server.Ask nonsense; Server.Ask nonsense; Server.Ask nonsense]
  = (Sample.loaded,
     [Server.json (Server.Result {| answer := None; suggestions := [] |});
      Server.json (Server.Result {| answer := None; suggestions := [] |});
      Server.json (Server.Result {| answer := Some Server.escalation;
                                    suggestions := [] |})]).
Proof.
  intros nonsense.
  exact (@third_consecutive_failure_escalates Sample.externals Sample.loaded
           nonsense nonsense nonsense {| answer := None; suggestions := [] |}
           {| answer := None; suggestions := [] |}
           {| answer := None; suggestions := [] |}
           eq_refl eq_refl eq_refl eq_refl eq_refl eq_refl eq_refl).
Defined.

(** ** The loaded server *)

Section Ready.
Context {E : Externals}.
Import Server.

Lemma loadFaqs_ready (raw : jsstring) (st : state) :
  ready (fst (loadFaqs (Some raw) st)).
Proof.
  split; [|reflexivity]. exact (proj1 (loadFaqs_aligned raw st)).
Qed.

(** [/ask] assigns nothing but the failure counter. *)
Lemma ask_frame (st : state) (question : jsval) :
  faqs (fst (ask st question)) = faqs st /\
  tfidf (fst (ask st question)) = tfidf st /\
  fuse (fst (ask st question)) = fuse st.
Proof.
  unfold ask. destruct (outcome (findAnswers st question 3)) as [r|e];
    [|repeat split].
  destruct (has_answer r); [repeat split|].
  destruct (FAIL_LIMIT <=? _)%Z; repeat split.
Qed.

Lemma handle_ready (st : state) (r : request) :
  ready st -> ready (fst (handle st r)).
Proof.
  intros [Hal Hf]. destruct r as [question|[raw|]]; simpl.
  - destruct (ask_frame st question) as [H1 [H2 H3]].
    unfold ready, aligned. rewrite H1, H2, H3. split; assumption.
  - apply loadFaqs_ready.
  - split; assumption.
Qed.

Lemma serve_ready (rs : list request) (st : state) :
  ready st -> ready (fst (serve st rs)).
Proof.
  revert st. induction rs as [|r rs IH]; intros st H; simpl; [exact H|].
  pose proof (handle_ready st r H) as H1.
  destruct (handle st r) as [st1 resp]. simpl in H1.
  specialize (IH st1 H1). destruct (serve st1 rs) as [st2 resps]. exact IH.
Qed.

(** [/ask] and [/reload] keep the documents of the TF-IDF index in step
    with the corpus. *)
Lemma handle_documents (st : state) (r : request) :
  documents (tfidf st) = map (fun f => preprocess (q f)) (faqs st) ->
  documents (tfidf (fst (handle st r)))
  = map (fun f => preprocess (q f)) (faqs (fst (handle st r))).
Proof.
  intros H. destruct r as [question|[raw|]]; simpl.
  - destruct (ask_frame st question) as [H1 [H2 _]]. now rewrite H1, H2.
  - reflexivity.
  - exact H.
Qed.

Lemma serve_documents (rs : list request) (st : state) :
  documents (tfidf st) = map (fun f => preprocess (q f)) (faqs st) ->
  documents (tfidf (fst (serve st rs)))
  = map (fun f => preprocess (q f)) (faqs (fst (serve st rs))).
Proof.
  revert st. induction rs as [|r rs IH]; intros st H; simpl; [exact H|].
  pose proof (handle_documents st r H) as H1.
  destruct (handle st r) as [st1 resp]. simpl in H1.
  specialize (IH st1 H1). destruct (serve st1 rs) as [st2 resps]. exact IH.
Qed.

(** Once the start-up [loadFaqs] has read a corpus file, whatever requests
    follow ([/ask] with any question, [/reload] that reads a file or
    fails), the TF-IDF index holds one document per corpus entry, in the
    order of the corpus: the preprocessed question of the entry (the answer
    is not indexed); and the Fuse index is built over the current
    entries. *)
Theorem indexes_follow_corpus (raw : jsstring) (rs : list request) :
  let st := fst (serve (fst (loadFaqs (Some raw) initial)) rs) in
  documents (tfidf st) = map (fun f => preprocess (q f)) (faqs st) /\
  fuse st = Some (faqs st).
Proof.
  split.
  - apply serve_documents. reflexivity.
  - exact (proj2 (serve_ready rs _ (loadFaqs_ready raw initial))).
Qed.

(** On a ready server [findAnswers] returns a result for every string. *)
Lemma findAnswers_string_Ok (st : state) (s : jsstring) :
  ready st -> exists r, outcome (findAnswers st (JString s) 3) = Ok r.
Proof.
  intros [Hal Hf].
  destruct (truthy (trim s)) eqn:Hs.
  2:{ exists {| answer := None; suggestions := [] |}.
      unfold findAnswers. simpl js_truthy.
      destruct (truthy s); [|reflexivity]. simpl. rewrite Hs. reflexivity. }
  destruct (scoring_query_outcome s) as [query Hq].
  rewrite (findAnswers_decide st s query 3 Hs Hq).
  assert (Hfz : exists r, outcome (fuzzy_fallback st s 3) = Ok r).
  { rewrite (fuzzy_fallback_outcome st s 3 (faqs st) Hf). cbv zeta.
    destruct (fuse_search (faqs st) s 3) as [|r0 [|r1 rest]];
      repeat match goal with
             | |- context [if ?b then _ else _] => destruct b
             end; eexists; reflexivity. }
  destruct (firstn 3 (sort by_score_desc (scores (tfidf st) query)))
    as [|top rest] eqn:Hbest.
  - exact Hfz.
  - destruct (faq_at_aligned st query 3 top Hal) as [f Hft];
      [rewrite Hbest; now left|].
    pose proof (decide_outcome st s query 3 top rest f Hal Hbest Hft) as Hd.
    rewrite Hbest in Hd. rewrite Hd.
    destruct ((TFIDF_STRONG <=? score top)
              && (TFIDF_SCORE_GAP <=? gap_of top rest))%float;
      [eexists; reflexivity|].
    destruct (TFIDF_WEAK <=? score top)%float; [eexists; reflexivity | exact Hfz].
Qed.

(** After the start-up load and any sequence of requests, [/ask] answers
    every string question with status 200: no lookup in [faqs] misses and
    [fuse] is never [null]. *)
Theorem ask_string_question_succeeds
        (raw : jsstring) (rs : list request) (s : jsstring) :
  let st := fst (serve (fst (loadFaqs (Some raw) initial)) rs) in
  code (snd (ask st (JString s))) = 200%Z.
Proof.
  intros st.
  destruct (findAnswers_string_Ok st s (serve_ready rs _ (loadFaqs_ready raw initial)))
    as [r Hr].
  rewrite (ask_step st (JString s) r Hr).
  destruct (has_answer r); [reflexivity|].
  destruct (failCount st + 1 <? FAIL_LIMIT)%Z; reflexivity.
Qed.

(** A question that is not a string but truthy (a non-zero number, [true],
    an array or an object) makes [findAnswers] throw on [trim]: [/ask]
    answers 500 with a null answer and leaves the whole state, the failure
    counter included, as it was. *)
Theorem ask_non_string_question (st : state) (question : jsval) :
  js_truthy question = true ->
  (forall s, question <> JString s) ->
  outcome (findAnswers st question 3) = Throw TypeError /\
  ask st question
  = (st, {| code := 500;
            payload := Result {| answer := None; suggestions := [] |} |}).
Proof.
  intros Ht Hns.
  assert (H : outcome (findAnswers st question 3) = Throw TypeError).
  { unfold findAnswers. rewrite Ht.
    destruct question; try reflexivity. now destruct (Hns s). }
  split; [exact H|]. exact (ask_throw st question TypeError H).
Qed.

(** A falsy question ([undefined], [null], [false], [0], [NaN], the empty
    string) is a failed question: [findAnswers] returns the null answer
    without suggestion and without a call to any index, and [/ask] counts
    one more failure and answers 200 with that result, or, when the count
    reaches [FAIL_LIMIT], with the escalation message, the counter back at
    0. *)
Theorem ask_falsy_question (st : state) (question : jsval) :
  js_truthy question = false ->
  findAnswers st question 3 = ret {| answer := None; suggestions := [] |} /\
  ask st question
  = if (failCount st + 1 <? FAIL_LIMIT)%Z
    then (set_failCount st (failCount st + 1),
          {| code := 200;
             payload := Result {| answer := None; suggestions := [] |} |})
    else (set_failCount st 0,
          {| code := 200;
             payload := Result {| answer := Some escalation;
                                  suggestions := [] |} |}).
Proof.
  intros Hf.
  assert (H : findAnswers st question 3
              = ret {| answer := None; suggestions := [] |})
    by (unfold findAnswers; now rewrite Hf).
  split; [exact H|].
  rewrite (ask_step st question {| answer := None; suggestions := [] |})
    by (now rewrite H).
  reflexivity.
Qed.

(** [/ask] never assigns the corpus or an index, and [/reload] never
    assigns the failure counter. *)
Theorem handlers_frame (st : state) (question : jsval) (file : option jsstring) :
  faqs (fst (ask st question)) = faqs st /\
  tfidf (fst (ask st question)) = tfidf st /\
  fuse (fst (ask st question)) = fuse st /\
  failCount (fst (reload file st)) = failCount st.
Proof.
  destruct (ask_frame st question) as [H1 [H2 H3]].
  repeat split; try assumption. apply reload_failCount.
Qed.

End Ready.

Lemma ask_non_string_question_witness :
  @Server.ask Sample.externals Sample.loaded (JNumber 42)
  = (Sample.loaded,
     {| Server.code := 500;
        Server.payload :=
          Server.Result {| answer := None; suggestions := [] |} |}).
Proof.
  refine (proj2 (@ask_non_string_question Sample.externals Sample.loaded
                   (JNumber 42) eq_refl _)).
  intros s H. discriminate H.
Defined.

Lemma ask_falsy_question_witness :
  @Server.ask Sample.externals Sample.loaded (JNumber 0)
  = (Server.set_failCount Sample.loaded 1,
     {| Server.code := 200;
        Server.payload :=
          Server.Result {| answer := None; suggestions := [] |} |}) /\
  @Server.ask Sample.externals (Server.set_failCount Server.initial 2) JNull
  = (Server.set_failCount Server.initial 0,
     {| Server.code := 200;
        Server.payload :=
          Server.Result {| answer := Some Server.escalation;
                           suggestions := [] |} |}).
Proof.
  split.
  - exact (proj2 (@ask_falsy_question Sample.externals Sample.loaded
                    (JNumber 0) eq_refl)).
  - exact (proj2 (@ask_falsy_question Sample.externals
                    (Server.set_failCount Server.initial 2) JNull eq_refl)).
Defined.

(** ** What a result can hold *)

Section Shape.
Context {E : Externals}.
Import Server.

(** The three origins of a result on a ready server: nothing, entries of
    the corpus picked by index, or the candidates Fuse returned. *)
Lemma findAnswers_shape (st : state) (s : jsstring) :
  ready st ->
  exists r,
    outcome (findAnswers st (JString s) 3) = Ok r /\
    (answer r = None \/
     (exists f, In f (faqs st) /\ answer r = Some (a f)) \/
     (exists r0, In r0 (fuse_search (faqs st) s 3) /\
                 answer r = Some (a (Fuse.item r0)))) /\
    (suggestions r = [] \/
     (exists best, (List.length best <= 3)%nat /\
        (forall b, In b best -> exists f, nth_error (faqs st) (index b) = Some f) /\
        suggestions r = map (fun b => question_at st (index b)) best) \/
     suggestions r = map (fun c => q (Fuse.item c)) (fuse_search (faqs st) s 3)).
Proof.
  intros [Hal Hf].
  destruct (truthy (trim s)) eqn:Hs.
  2:{ exists {| answer := None; suggestions := [] |}.
      split; [|split; now left].
      unfold findAnswers. simpl js_truthy.
      destruct (truthy s); [|reflexivity]. simpl. rewrite Hs. reflexivity. }
  destruct (scoring_query_outcome s) as [query Hq].
  rewrite (findAnswers_decide st s query 3 Hs Hq).
  assert (Hfz : exists r,
             outcome (fuzzy_fallback st s 3) = Ok r /\
             (answer r = None \/
              (exists f, In f (faqs st) /\ answer r = Some (a f)) \/
              (exists r0, In r0 (fuse_search (faqs st) s 3) /\
                          answer r = Some (a (Fuse.item r0)))) /\
             (suggestions r = [] \/
              (exists best, (List.length best <= 3)%nat /\
                 (forall b, In b best ->
                            exists f, nth_error (faqs st) (index b) = Some f) /\
                 suggestions r = map (fun b => question_at st (index b)) best) \/
              suggestions r
              = map (fun c => q (Fuse.item c)) (fuse_search (faqs st) s 3))).
  { rewrite (fuzzy_fallback_outcome st s 3 (faqs st) Hf). cbv zeta.
    destruct (fuse_search (faqs st) s 3) as [|r0 rest] eqn:Hres.
    - eexists. split; [reflexivity|]. split; [now left | now left].
    - assert (Hin : In r0 (r0 :: rest)) by now left.
      destruct (Fuse.score r0 <=? FUSE_ACCEPT_THRESHOLD)%float;
        [destruct rest as [|r1 rest'];
         [|destruct (abs (Fuse.score r0 - Fuse.score r1) <? FUSE_AMBIGUITY)%float]|];
        eexists; (split; [reflexivity|]); simpl answer; simpl suggestions;
        (split; [| right; right; reflexivity]);
        first [ now left | right; right; exists r0; split; [exact Hin | reflexivity] ]. }
  destruct (firstn 3 (sort by_score_desc (scores (tfidf st) query)))
    as [|top rest] eqn:Hbest; [exact Hfz|].
  assert (Hall : forall b, In b (top :: rest) ->
                   exists f, nth_error (faqs st) (index b) = Some f).
  { intros b Hb. apply (faq_at_aligned st query 3 b Hal). now rewrite Hbest. }
  destruct (Hall top (or_introl eq_refl)) as [f Hft].
  pose proof (decide_outcome st s query 3 top rest f Hal Hbest Hft) as Hd.
  rewrite Hbest in Hd. rewrite Hd.
  assert (Hinf : In f (faqs st)) by exact (nth_error_In _ _ Hft).
  destruct ((TFIDF_STRONG <=? score top)
            && (TFIDF_SCORE_GAP <=? gap_of top rest))%float.
  - eexists. split; [reflexivity|]. simpl. split; [|now left].
    right. left. exists f. split; [exact Hinf | reflexivity].
  - destruct (TFIDF_WEAK <=? score top)%float; [|exact Hfz].
    eexists. split; [reflexivity|]. simpl answer. simpl suggestions. split.
    + right. left. exists f. split; [exact Hinf | reflexivity].
    + right. left. exists (top :: rest). split; [|split; [exact Hall | reflexivity]].
      rewrite <- Hbest. apply firstn_le_length.
Qed.

(** On a ready server [findAnswers] returns at most [k = 3] suggestions
    for a string question, as long as Fuse returns at most [limit = 3]
    candidates. *)
Theorem findAnswers_at_most_k_suggestions
        (st : state) (s : jsstring) (r : QueryResult) :
  ready st ->
  (List.length (fuse_search (faqs st) s 3) <= 3)%nat ->
  outcome (findAnswers st (JString s) 3) = Ok r ->
  (List.length (suggestions r) <= 3)%nat.
Proof.
  intros Hr Hlim Hout.
  destruct (findAnswers_shape st s Hr) as [r' [Hout' [_ Hsug]]].
  rewrite Hout in Hout'. injection Hout' as <-.
  destruct Hsug as [H|[[best [Hlen [_ H]]]|H]]; rewrite H.
  - simpl. lia.
  - now rewrite length_map.
  - now rewrite length_map.
Qed.

(** On a ready server every answer [findAnswers] returns is the answer
    text of a corpus entry and every suggestion is the question of a
    corpus entry, as long as Fuse returns items of its collection. *)
Theorem findAnswers_returns_corpus_text
        (st : state) (s : jsstring) (r : QueryResult) :
  ready st ->
  (forall c, In c (fuse_search (faqs st) s 3) -> In (Fuse.item c) (faqs st)) ->
  outcome (findAnswers st (JString s) 3) = Ok r ->
  (forall x, answer r = Some x -> exists f, In f (faqs st) /\ a f = x) /\
  (forall x, In x (suggestions r) -> exists f, In f (faqs st) /\ q f = x).
Proof.
  intros Hr Hitems Hout.
  destruct (findAnswers_shape st s Hr) as [r' [Hout' [Hans Hsug]]].
  rewrite Hout in Hout'. injection Hout' as <-.
  split.
  - intros x Hx. destruct Hans as [H|[[f [Hf H]]|[r0 [Hr0 H]]]];
      rewrite H in Hx; try discriminate; injection Hx as <-.
    + now exists f.
    + exists (Fuse.item r0). split; [now apply Hitems | reflexivity].
  - intros x Hx. destruct Hsug as [H|[[best [_ [Hall H]]]|H]];
      rewrite H in Hx.
    + contradiction.
    + apply in_map_iff in Hx. destruct Hx as [b [<- Hb]].
      destruct (Hall b Hb) as [f Hf]. exists f.
      split; [exact (nth_error_In _ _ Hf)|].
      unfold question_at. now rewrite Hf.
    + apply in_map_iff in Hx. destruct Hx as [c [<- Hc]].
      exists (Fuse.item c). split; [now apply Hitems | reflexivity].
Qed.

End Shape.

(** ** More on query expansion *)

Section ExpansionOrder.
Context {E : Externals}.
Import Server.

Lemma set_add_NoDup (x : jsstring) (expanded : list jsstring) :
  NoDup expanded -> NoDup (set_add x expanded).
Proof.
  intros H. unfold set_add. destruct (includes expanded x) eqn:Hi; [exact H|].
  apply NoDup_app; [exact H | repeat constructor; intros [] |].
  intros y Hy [<-|[]].
  apply includes_In in Hy. congruence.
Qed.

Lemma set_add_extends (x : jsstring) (expanded : list jsstring) :
  exists added, set_add x expanded = expanded ++ added.
Proof.
  unfold set_add. destruct (includes expanded x).
  - exists []. now rewrite app_nil_r.
  - now exists [x].
Qed.

Lemma new_Set_acc_NoDup (words acc : list jsstring) :
  NoDup acc ->
  NoDup (fold_left (fun expanded w => set_add w expanded) words acc).
Proof.
  revert acc. induction words as [|w words IH]; intros acc H; simpl; [exact H|].
  apply IH, set_add_NoDup, H.
Qed.

Lemma grows_refl (l : list jsstring) : grows l l.
Proof. split; [auto | exists []; now rewrite app_nil_r]. Qed.

Lemma grows_trans (l1 l2 l3 : list jsstring) :
  grows l1 l2 -> grows l2 l3 -> grows l1 l3.
Proof.
  intros [N1 [a1 ->]] [N2 [a2 ->]]. split; [auto|].
  exists (a1 ++ a2). now rewrite app_assoc.
Qed.

Lemma set_add_grows (x : jsstring) (expanded : list jsstring) :
  grows expanded (set_add x expanded).
Proof. split; [apply set_add_NoDup | apply set_add_extends]. Qed.

Lemma add_synonyms_grows (results : list wordnetResult) (expanded : list jsstring) :
  grows expanded (add_synonyms results expanded).
Proof.
  unfold add_synonyms. revert expanded.
  induction results as [|r results IH]; intros expanded; simpl;
    [apply grows_refl|].
  eapply grows_trans; [|apply IH].
  generalize (synonyms r). intros syns. revert expanded.
  induction syns as [|s syns IHs]; intros expanded; simpl; [apply grows_refl|].
  eapply grows_trans; [|apply IHs].
  destruct (negb (has_space s)); [apply set_add_grows | apply grows_refl].
Qed.

Lemma lookup_all_grows (words expanded r : list jsstring) :
  outcome (lookup_all words expanded) = Ok r -> grows expanded r.
Proof.
  revert expanded. induction words as [|w words IH]; intros expanded;
    cbn [lookup_all].
  - intros H. injection H as <-. apply grows_refl.
  - rewrite (outcome_bind_Ok _ _ _ (eq_refl : outcome (lookup w expanded) = Ok _)).
    intros H. eapply grows_trans; [|exact (IH _ H)].
    destruct (wordnet_lookup w); [apply add_synonyms_grows | apply grows_refl].
Qed.

(** The set [expandQuery] joins holds no word twice, and it starts with
    the words of the query in the order of their first occurrence: the
    synonyms come after them. *)
Theorem expanded_set_first_seen_order (query : jsstring) :
  exists expanded added,
    outcome (expanded_set query) = Ok expanded /\
    NoDup expanded /\
    expanded = new_Set (query_words query) ++ added.
Proof.
  unfold expanded_set.
  destruct (lookup_all_outcome (query_words query) (new_Set (query_words query)))
    as [r Hr].
  destruct (lookup_all_grows _ _ _ Hr) as [Hnd [added Hadd]].
  exists r, added. split; [exact Hr|]. split; [|exact Hadd].
  apply Hnd. unfold new_Set. apply new_Set_acc_NoDup. constructor.
Qed.

Lemma lookup_all_nothing (words expanded : list jsstring) :
  (forall w, In w words ->
             wordnet_lookup w = None \/ wordnet_lookup w = Some []) ->
  outcome (lookup_all words expanded) = Ok expanded.
Proof.
  revert expanded. induction words as [|w words IH]; intros expanded H;
    cbn [lookup_all]; [reflexivity|].
  rewrite (outcome_bind_Ok _ _ _ (eq_refl : outcome (lookup w expanded) = Ok _)).
  destruct (H w (or_introl eq_refl)) as [-> | ->]; simpl;
    apply IH; intros w' Hw'; apply H; now right.
Qed.

(** When every WordNet lookup fails or finds nothing, the expansion is
    the words of the query themselves, each once: a failed lookup is not an
    error of the query. *)
Theorem expandQuery_without_synonyms (query : jsstring) :
  truthy query = true ->
  (forall w, In w (query_words query) ->
             wordnet_lookup w = None \/ wordnet_lookup w = Some []) ->
  outcome (expandQuery query) = Ok (join (new_Set (query_words query))).
Proof.
  intros Hq H. unfold expandQuery. rewrite Hq. simpl negb. cbv iota.
  unfold expanded_set.
  now rewrite (outcome_bind_Ok _ _ _ (lookup_all_nothing _ _ H)).
Qed.

End ExpansionOrder.

(** ** Text without usable characters *)

Lemma split_ws_blank (s : jsstring) :
  forallb is_ws s = true -> Forall (fun t => truthy t = false) (split_ws s).
Proof.
  induction s as [|c s IH]; [repeat constructor|].
  cbn [forallb]. intros H. apply andb_true_iff in H. destruct H as [Hc Hs].
  cbn [split_ws]. rewrite Hc. specialize (IH Hs).
  destruct s as [|c' s']; [constructor; [reflexivity | exact IH]|].
  cbn [forallb] in Hs. apply andb_true_iff in Hs. destruct Hs as [Hc' _].
  rewrite Hc'. exact IH.
Qed.

Lemma filter_none {A} (p : A -> bool) (l : list A) :
  Forall (fun x => p x = false) l -> filter p l = [].
Proof.
  induction 1 as [|x l Hx _ IH]; simpl; [reflexivity|]. now rewrite Hx.
Qed.

Lemma replace_outside_blank (keep : N -> bool) (s : jsstring) :
  forallb (fun c => negb (keep c) || is_ws c) s = true ->
  forallb is_ws (replace_outside keep s) = true.
Proof.
  unfold replace_outside. induction s as [|c s IH]; [reflexivity|].
  cbn [forallb map]. intros H. apply andb_true_iff in H. destruct H as [Hc Hs].
  rewrite (IH Hs), andb_true_r.
  destruct (keep c); [exact Hc | reflexivity].
Qed.

Section Unusable.
Context {E : Externals}.
Import Server.

(** A query whose lower-case form has no ASCII letter (digits, Bengali
    text, punctuation) is not looked up in WordNet at all and expands to
    the empty string. *)
Theorem expandQuery_without_letters (query : jsstring) :
  existsb is_lower (toLowerCase query) = false ->
  calls (expandQuery query) = [] /\ outcome (expandQuery query) = Ok [].
Proof.
  intros H.
  assert (Hw : query_words query = []).
  { unfold query_words. apply filter_none, split_ws_blank, replace_outside_blank.
    apply forallb_forall. intros c Hc.
    assert (Hl : is_lower c = false).
    { destruct (is_lower c) eqn:Hlc; [|reflexivity].
      assert (existsb is_lower (toLowerCase query) = true)
        by (apply existsb_exists; now exists c).
      congruence. }
    rewrite Hl. simpl. destruct (is_ws c); reflexivity. }
  unfold expandQuery. destruct (negb (truthy query)); [split; reflexivity|].
  unfold expanded_set. rewrite Hw. split; reflexivity.
Qed.

(** A text whose normalised form holds no letter, digit or Bengali
    character (only punctuation, symbols, other scripts and white space)
    is preprocessed to the empty string. *)
Theorem preprocess_nothing_kept (text : jsstring) :
  forallb (fun c => negb (is_lower c || is_bengali c || is_digit c))
          (toLowerCase (normalize_NFC text)) = true ->
  preprocess text = [].
Proof.
  intros H. unfold preprocess. destruct (negb (truthy text)); [reflexivity|].
  unfold preprocess_tokens.
  rewrite (filter_none truthy (split_ws _)); [reflexivity|].
  apply split_ws_blank, replace_outside_blank.
  apply forallb_forall. intros c Hc.
  pose proof (proj1 (forallb_forall _ _) H c Hc) as Hk. simpl in Hk.
  unfold kept. destruct (is_lower c || is_bengali c || is_digit c);
    [discriminate Hk|]. simpl. destruct (is_ws c); reflexivity.
Qed.

Lemma other_script_char (c : N) :
  is_bengali c || is_digit c = true ->
  kept c && negb (is_ws c) = true /\ is_lower c = false.
Proof.
  intros H.
  assert (Hr : (2432 <= c <= 2559 \/ 48 <= c <= 57)%N).
  { unfold is_bengali, is_digit in H. apply orb_true_iff in H.
    destruct H as [H|H]; apply andb_true_iff in H; destruct H as [H1 H2];
      apply N.leb_le in H1; apply N.leb_le in H2; lia. }
  assert (Hw : is_ws c = false).
  { destruct (is_ws c) eqn:Hw; [exfalso|reflexivity].
    unfold is_ws in Hw.
    repeat (apply orb_true_iff in Hw; destruct Hw as [Hw|Hw]);
      try (apply andb_true_iff in Hw; destruct Hw as [Hw1 Hw2];
           apply N.leb_le in Hw1; apply N.leb_le in Hw2; lia);
      apply N.eqb_eq in Hw; lia. }
  assert (Hl : is_lower c = false).
  { destruct (is_lower c) eqn:Hl; [exfalso|reflexivity].
    unfold is_lower in Hl. apply andb_true_iff in Hl. destruct Hl as [H1 H2].
    apply N.leb_le in H1. apply N.leb_le in H2. lia. }
  split; [|exact Hl]. unfold kept. rewrite Hl, Hw. simpl.
  rewrite orb_false_r. rewrite H. reflexivity.
Qed.

(** [preprocess] reads a non-empty text only through its normalised,
    lower-cased form: when that form is a sequence of stable tokens joined
    by single spaces, it is the result. *)
Lemma preprocess_of_normal_form (text : jsstring) (ts : list jsstring) :
  truthy text = true ->
  toLowerCase (normalize_NFC text) = join ts ->
  Forall (fun t => truthy t = true) ts ->
  Forall stable_token ts ->
  preprocess text = join ts.
Proof.
  intros Htext Hu Hne Hst. unfold preprocess. rewrite Htext.
  cbn [negb]. cbv iota. f_equal. unfold preprocess_tokens. rewrite Hu.
  destruct ts as [|t ts]; [reflexivity|].
  assert (Hkept : Forall (fun t => forallb kept t = true) (t :: ts)).
  { apply Forall_forall. intros u Hin.
    destruct (proj1 (Forall_forall _ _) Hst u Hin) as [Hk _].
    apply (forallb_weaken _ _ u) with (2 := Hk).
    intros c Hc. apply andb_true_iff in Hc. tauto. }
  assert (Hnows : Forall (fun t => truthy t = true /\
                    forallb (fun c => negb (is_ws c)) t = true) (t :: ts)).
  { apply Forall_forall. intros u Hin. split.
    - exact (proj1 (Forall_forall _ _) Hne u Hin).
    - destruct (proj1 (Forall_forall _ _) Hst u Hin) as [Hk _].
      apply (forallb_weaken _ _ u) with (2 := Hk).
      intros c Hc. apply andb_true_iff in Hc. tauto. }
  rewrite (replace_outside_kept kept (join (t :: ts))
             (join_kept kept (t :: ts) eq_refl Hkept)).
  rewrite (split_ws_join (t :: ts) ltac:(discriminate) Hnows).
  rewrite (filter_all truthy (t :: ts) Hne).
  rewrite (map_fixed preprocess_token (t :: ts)).
  - exact (filter_all truthy (t :: ts) Hne).
  - apply Forall_forall. intros u Hin. apply stable_token_fixed.
    exact (proj1 (Forall_forall _ _) Hst u Hin).
Qed.

(** When the NFC-normalised, lower-cased form of a non-empty text is a
    sequence of tokens made of Bengali characters and digits only, joined
    by single spaces, [preprocess] returns exactly that form: no stop word
    is dropped and the stemmer is not applied, whatever the tokens are.
    (The condition is on the normalised form, since NFC rewrites some
    Bengali letters.) *)
Theorem preprocess_keeps_other_scripts (text : jsstring) (ts : list jsstring) :
  truthy text = true ->
  Forall (fun t => truthy t = true /\
                   forallb (fun c => is_bengali c || is_digit c) t = true) ts ->
  toLowerCase (normalize_NFC text) = join ts ->
  preprocess text = join ts.
Proof.
  intros Htext Hts Hu. apply preprocess_of_normal_form; [exact Htext | exact Hu | |].
  - apply Forall_forall. intros t Ht.
    exact (proj1 (proj1 (Forall_forall _ _) Hts t Ht)).
  - apply Forall_forall. intros t Ht.
    destruct (proj1 (Forall_forall _ _) Hts t Ht) as [_ Hc]. split.
    + apply (forallb_weaken _ _ t) with (2 := Hc).
      intros c H. exact (proj1 (other_script_char c H)).
    + intros Hl. apply existsb_exists in Hl. destruct Hl as [c [Hin Hlc]].
      pose proof (proj1 (forallb_forall _ _) Hc c Hin) as Hb.
      destruct (other_script_char c Hb) as [_ Hn]. congruence.
Qed.

End Unusable.

(** ** The corpus file *)

Lemma replace_crlf_cons (c : N) (s : jsstring) :
  replace_crlf (c :: s) =
  if ((c =? 13)%N && match s with d :: _ => (d =? 10)%N | [] => false end)%bool
  then replace_crlf s else c :: replace_crlf s.
Proof.
  destruct c as [|p]; [reflexivity|].
  repeat (try reflexivity; destruct p as [p|p|]).
  destruct s as [|d s]; [reflexivity|].
  destruct d as [|p]; [reflexivity|].
  repeat (try reflexivity; destruct p as [p|p|]).
Qed.

Lemma replace_crlf_no_return (s : jsstring) :
  forallb Server.not_return s = true -> replace_crlf s = s.
Proof.
  induction s as [|c s IH]; [reflexivity|].
  cbn [forallb]. intros H. apply andb_true_iff in H. destruct H as [Hc Hs].
  rewrite replace_crlf_cons, (IH Hs).
  unfold Server.not_return, Server.carriage_return in Hc.
  apply negb_true_iff in Hc. now rewrite Hc.
Qed.

Lemma forallb_replace_crlf (p : N -> bool) (s : jsstring) :
  forallb p s = true -> forallb p (replace_crlf s) = true.
Proof.
  induction s as [|c s IH]; [reflexivity|].
  cbn [forallb]. intros H. apply andb_true_iff in H. destruct H as [Hc Hs].
  rewrite replace_crlf_cons.
  destruct ((c =? 13)%N && _)%bool; [exact (IH Hs)|].
  cbn [forallb]. now rewrite Hc, (IH Hs).
Qed.

Lemma to_crlf_head (s : jsstring) :
  match Server.to_crlf s with d :: _ => (d =? 10)%N | [] => false end = false.
Proof.
  destruct s as [|c s]; [reflexivity|]. unfold Server.to_crlf. cbn [flat_map].
  destruct (N.eqb_spec c newline) as [->|Hc]; [reflexivity|].
  cbn [app]. now apply N.eqb_neq.
Qed.

(** Writing line feeds as carriage return, line feed and replacing them
    back gives the text again. *)
Lemma replace_crlf_to_crlf (s : jsstring) :
  replace_crlf (Server.to_crlf s) = s.
Proof.
  induction s as [|c s IH]; [reflexivity|].
  change (Server.to_crlf (c :: s))
    with ((if (c =? newline)%N then [Server.carriage_return; newline] else [c])
          ++ Server.to_crlf s).
  destruct (N.eqb_spec c newline) as [->|Hc].
  - cbn [app].
    change (replace_crlf (Server.carriage_return :: newline :: Server.to_crlf s))
      with (newline :: replace_crlf (Server.to_crlf s)).
    now rewrite IH.
  - cbn [app]. rewrite replace_crlf_cons, to_crlf_head, andb_false_r.
    now rewrite IH.
Qed.

Lemma trim_tidy (s : jsstring) : Server.tidy s = true -> trim s = s.
Proof.
  unfold Server.tidy, trim. intros H. apply andb_true_iff in H.
  destruct H as [H1 H2]. apply negb_true_iff in H1. apply negb_true_iff in H2.
  assert (Hd : forall t, is_ws (hd space t) = false -> dropWhile is_ws t = t).
  { intros [|c t] Ht; [reflexivity|]. simpl in Ht. simpl. now rewrite Ht. }
  rewrite (Hd s H1), (Hd (rev s) H2). apply rev_involutive.
Qed.

Lemma takeWhile_app (p : N -> bool) (x y : jsstring) (c : N) :
  forallb p x = true -> p c = false -> takeWhile p (x ++ c :: y) = x.
Proof.
  intros Hx Hc. induction x as [|d x IH]; simpl; [now rewrite Hc|].
  simpl in Hx. apply andb_true_iff in Hx. destruct Hx as [Hd Hx].
  now rewrite Hd, (IH Hx).
Qed.

Lemma dropWhile_app (p : N -> bool) (x y : jsstring) (c : N) :
  forallb p x = true -> p c = false -> dropWhile p (x ++ c :: y) = c :: y.
Proof.
  intros Hx Hc. induction x as [|d x IH]; simpl; [now rewrite Hc|].
  simpl in Hx. apply andb_true_iff in Hx. destruct Hx as [Hd Hx].
  now rewrite Hd, (IH Hx).
Qed.

Lemma match_question_eq (rest : jsstring) :
  Server.match_question rest =
  let here :=
    match takeWhile Server.not_newline rest with
    | [] => None
    | line =>
        match strip_prefix (newline :: lit "A:")
                (dropWhile Server.not_newline rest) with
        | Some after => Some (line, after)
        | None => None
        end
    end in
  match rest with
  | c :: rest' =>
      if is_ws c then
        match Server.match_question rest' with
        | Some m => Some m
        | None => here
        end
      else here
  | [] => here
  end.
Proof. destruct rest; reflexivity. Qed.

(** A question line that starts with a visible character, after [Q:] and
    one space. *)
Lemma match_question_line (c : N) (line after : jsstring) :
  is_ws c = false ->
  forallb Server.not_newline (c :: line) = true ->
  Server.match_question (space :: (c :: line) ++ newline :: lit "A:" ++ after)
  = Some (c :: line, after).
Proof.
  intros Hc Hl.
  assert (Hin : Server.match_question ((c :: line) ++ newline :: lit "A:" ++ after)
                = Some (c :: line, after)).
  { rewrite match_question_eq. cbv zeta.
    rewrite (takeWhile_app Server.not_newline (c :: line) _ newline Hl eq_refl).
    rewrite (dropWhile_app Server.not_newline (c :: line) _ newline Hl eq_refl).
    cbn [app]. rewrite Hc.
    change (strip_prefix (newline :: lit "A:") (newline :: lit "A:" ++ after))
      with (Some after). reflexivity. }
  rewrite match_question_eq. cbv zeta.
  change (is_ws space) with true. cbv iota. now rewrite Hin.
Qed.

(** The marker is not completed across the end of a text that is followed
    by nothing or by a line feed. *)
Lemma strip_marker_app (c : N) (x tail : jsstring) :
  strip_prefix (newline :: lit "Q:") (c :: x) = None ->
  tail = [] \/ (exists t, tail = newline :: t) ->
  strip_prefix (newline :: lit "Q:") (c :: x ++ tail) = None.
Proof.
  intros H Ht.
  change (newline :: lit "Q:") with [10%N; 81%N; 58%N] in H |- *.
  cbn [strip_prefix app] in H |- *.
  destruct (10 =? c)%N; [|reflexivity].
  destruct x as [|d x]; cbn [app strip_prefix] in H |- *.
  - destruct Ht as [->|[t ->]]; reflexivity.
  - destruct (81 =? d)%N; [|reflexivity].
    destruct x as [|e x]; cbn [app strip_prefix] in H |- *.
    + destruct Ht as [->|[t ->]]; reflexivity.
    + destruct (58 =? e)%N; [discriminate H | reflexivity].
Qed.

Lemma match_answer_app (x tail : jsstring) :
  Server.has_block_start x = false ->
  tail = [] \/ (exists t, tail = newline :: lit "Q:" ++ t) ->
  Server.match_answer (x ++ tail) = (x, tail).
Proof.
  intros Hx Ht. induction x as [|c x IH].
  - cbn [app]. destruct Ht as [->|[t ->]]; reflexivity.
  - cbn [Server.has_block_start] in Hx.
    destruct (strip_prefix (newline :: lit "Q:") (c :: x)) eqn:Hs;
      [discriminate Hx|].
    cbn [app Server.match_answer].
    rewrite (strip_marker_app c x tail Hs)
      by (destruct Ht as [->|[t ->]]; [now left | right; eexists; reflexivity]).
    now rewrite (IH Hx).
Qed.

Lemma exec_all_skip (pre s : jsstring) :
  Server.exec_all (pre ++ s) (List.length pre) = Server.exec_all s 0.
Proof. induction pre as [|c pre IH]; [reflexivity | exact IH]. Qed.

Lemma tidy_head (s : jsstring) :
  Server.tidy s = true -> exists c t, s = c :: t /\ is_ws c = false.
Proof.
  unfold Server.tidy. destruct s as [|c t]; [discriminate|]. simpl.
  intros H. apply andb_true_iff in H. destruct H as [H _].
  exists c, t. split; [reflexivity | now apply negb_true_iff].
Qed.

(** One block at the head of the text is one match, and the search goes
    on behind it. *)
Lemma exec_all_block (f : faq) (tail : jsstring) :
  Server.writable f = true ->
  tail = [] \/ (exists t, tail = newline :: lit "Q:" ++ t) ->
  Server.exec_all (Server.block f ++ tail) 0
  = (q f, a f) :: Server.exec_all tail 0.
Proof.
  unfold Server.writable. intros Hw Ht.
  apply andb_true_iff in Hw. destruct Hw as [Hw _].
  apply andb_true_iff in Hw. destruct Hw as [Hw Hbs].
  apply andb_true_iff in Hw. destruct Hw as [Hw Hta].
  apply andb_true_iff in Hw. destruct Hw as [Hw _].
  apply andb_true_iff in Hw. destruct Hw as [Htq Hnl].
  apply negb_true_iff in Hbs.
  destruct (tidy_head (q f) Htq) as [c [line [Hq Hc]]].
  destruct (tidy_head (a f) Hta) as [d [ans [Ha Hd]]].
  assert (Hm : Server.match_at (Server.block f ++ tail) = Some (q f, a f, tail)).
  { unfold Server.match_at, Server.block.
    change (strip_prefix (lit "Q:")
              ((lit "Q: " ++ q f ++ newline :: lit "A: " ++ a f) ++ tail))
      with (Some (space :: (q f ++ newline :: lit "A: " ++ a f) ++ tail)).
    cbv iota.
    replace (space :: (q f ++ newline :: lit "A: " ++ a f) ++ tail)
      with (space :: (c :: line) ++ newline :: lit "A:" ++ (space :: a f ++ tail))
      by (rewrite Hq, <- !app_assoc; reflexivity).
    rewrite (match_question_line c line _ Hc) by (rewrite <- Hq; exact Hnl).
    change (dropWhile is_ws (space :: a f ++ tail))
      with (dropWhile is_ws (a f ++ tail)).
    assert (Hdw : dropWhile is_ws (a f ++ tail) = a f ++ tail)
      by (rewrite Ha; cbn [app dropWhile]; now rewrite Hd).
    rewrite Hdw, (match_answer_app (a f) tail Hbs Ht), <- Hq.
    reflexivity. }
  assert (Hb : exists b, Server.block f = 81%N :: b) by (eexists; reflexivity).
  destruct Hb as [b Hb].
  rewrite Hb in Hm |- *. cbn [app Server.exec_all]. cbn [app] in Hm.
  rewrite Hm.
  replace (List.length (81%N :: b ++ tail) - List.length tail - 1)%nat
    with (List.length b) by (cbn [List.length]; rewrite length_app; lia).
  now rewrite exec_all_skip.
Qed.

Lemma exec_all_newline (s : jsstring) :
  Server.exec_all (newline :: s) 0 = Server.exec_all s 0.
Proof. reflexivity. Qed.

Lemma render_cons (f : faq) (fs : list faq) :
  Server.render (f :: fs) =
  Server.block f ++ match fs with
                    | [] => []
                    | _ :: _ => newline :: Server.render fs
                    end.
Proof.
  unfold Server.render. destruct fs; cbn [map lines];
    [now rewrite app_nil_r | reflexivity].
Qed.

Lemma render_head (f : faq) (fs : list faq) :
  exists t, Server.render (f :: fs) = lit "Q:" ++ t.
Proof. rewrite render_cons. unfold Server.block. eexists. reflexivity. Qed.

Lemma exec_all_render (entries : list faq) :
  Forall (fun f => Server.writable f = true) entries ->
  Server.exec_all (Server.render entries) 0
  = map (fun f => (q f, a f)) entries.
Proof.
  induction 1 as [|f fs Hf Hfs IH]; [reflexivity|].
  rewrite render_cons. destruct fs as [|f2 fs].
  - rewrite (exec_all_block f [] Hf) by now left. reflexivity.
  - destruct (render_head f2 fs) as [t Ht].
    rewrite (exec_all_block f _ Hf)
      by (right; exists t; now rewrite Ht).
    rewrite exec_all_newline, IH. reflexivity.
Qed.

Lemma forallb_app_lit (p : N -> bool) (x y : jsstring) :
  forallb p x = true -> forallb p y = true -> forallb p (x ++ y) = true.
Proof. intros Hx Hy. now rewrite forallb_app, Hx, Hy. Qed.

Lemma render_no_return (entries : list faq) :
  Forall (fun f => Server.writable f = true) entries ->
  forallb Server.not_return (Server.render entries) = true.
Proof.
  induction 1 as [|f fs Hf Hfs IH]; [reflexivity|].
  rewrite render_cons.
  unfold Server.writable in Hf.
  apply andb_true_iff in Hf. destruct Hf as [Hf Hra].
  apply andb_true_iff in Hf. destruct Hf as [Hf _].
  apply andb_true_iff in Hf. destruct Hf as [Hf _].
  apply andb_true_iff in Hf. destruct Hf as [_ Hrq].
  apply forallb_app_lit.
  - unfold Server.block.
    apply forallb_app_lit; [reflexivity|].
    apply forallb_app_lit; [exact Hrq|].
    change (newline :: lit "A: " ++ a f) with ((newline :: lit "A: ") ++ a f).
    apply forallb_app_lit; [reflexivity | exact Hra].
  - destruct fs; [reflexivity|]. cbn [forallb]. now rewrite IH.
Qed.

Lemma forallb_dropWhile (p r : N -> bool) (s : jsstring) :
  forallb p s = true -> forallb p (dropWhile r s) = true.
Proof.
  induction s as [|c s IH]; [reflexivity|].
  intros H. cbn [dropWhile]. destruct (r c); [|exact H].
  cbn [forallb] in H. apply andb_true_iff in H. now apply IH.
Qed.

Lemma forallb_rev (p : N -> bool) (s : jsstring) :
  forallb p s = true -> forallb p (rev s) = true.
Proof.
  intros H. apply forallb_forall. intros c Hc. apply in_rev in Hc.
  exact (proj1 (forallb_forall _ _) H c Hc).
Qed.

Lemma forallb_trim (p : N -> bool) (s : jsstring) :
  forallb p s = true -> forallb p (trim s) = true.
Proof.
  intros H. unfold trim.
  now apply forallb_rev, forallb_dropWhile, forallb_rev, forallb_dropWhile.
Qed.

Lemma dropWhile_suffix (p : N -> bool) (s : jsstring) :
  exists pre, s = pre ++ dropWhile p s.
Proof.
  induction s as [|c s [pre IH]]; [now exists []|].
  cbn [dropWhile]. destruct (p c); [|now exists []].
  exists (c :: pre). cbn [app]. now rewrite <- IH.
Qed.

Lemma dropWhile_head (p : N -> bool) (s : jsstring) (d : N) :
  dropWhile p s = [] \/ p (hd d (dropWhile p s)) = false.
Proof.
  induction s as [|c s IH]; [now left|].
  cbn [dropWhile]. destruct (p c) eqn:Hc; [exact IH | right; exact Hc].
Qed.

(** What [trim] returns is empty or has no white space at either end. *)
Lemma trim_result (s : jsstring) : trim s = [] \/ Server.tidy (trim s) = true.
Proof.
  unfold trim. set (u := dropWhile is_ws s).
  destruct (dropWhile_head is_ws (rev u) space) as [Hv|Hv].
  - left. now rewrite Hv.
  - destruct (dropWhile is_ws (rev u)) as [|c v] eqn:Hd; [now left|].
    right. unfold Server.tidy. rewrite rev_involutive.
    cbn [hd] in Hv |- *. rewrite Hv, andb_true_r.
    destruct (dropWhile_suffix is_ws (rev u)) as [pre Hpre].
    rewrite Hd in Hpre.
    assert (Hu : u = rev (c :: v) ++ rev pre).
    { rewrite <- (rev_involutive u), Hpre, rev_app_distr. reflexivity. }
    destruct (rev (c :: v)) as [|e w] eqn:Hr.
    + apply (f_equal (@List.length N)) in Hr. rewrite length_rev in Hr.
      discriminate Hr.
    + cbn [hd]. subst u.
      destruct (dropWhile_head is_ws s space) as [H0|H0].
      * rewrite H0 in Hu. discriminate Hu.
      * rewrite Hu in H0. cbn [app hd] in H0. now rewrite H0.
Qed.

Lemma match_question_one_line (rest line after : jsstring) :
  Server.match_question rest = Some (line, after) ->
  truthy line = true /\ forallb Server.not_newline line = true.
Proof.
  assert (Htw : forall p l, forallb p (takeWhile p l) = true).
  { intros p l. induction l as [|c l IH]; [reflexivity|].
    cbn [takeWhile]. destruct (p c) eqn:Hc; [|reflexivity].
    cbn [forallb]. now rewrite Hc, IH. }
  assert (Hhere : forall r,
    match takeWhile Server.not_newline r with
    | [] => None
    | l => match strip_prefix (newline :: lit "A:")
                   (dropWhile Server.not_newline r) with
           | Some af => Some (l, af)
           | None => None
           end
    end = Some (line, after) ->
    truthy line = true /\ forallb Server.not_newline line = true).
  { intros r H. pose proof (Htw Server.not_newline r) as Hl.
    destruct (takeWhile Server.not_newline r) as [|c l]; [discriminate H|].
    destruct (strip_prefix _ _); [|discriminate H].
    injection H as <- _. split; [reflexivity | exact Hl]. }
  induction rest as [|c rest IH]; rewrite match_question_eq; cbv zeta.
  - apply Hhere.
  - destruct (is_ws c); [|apply Hhere].
    destruct (Server.match_question rest) as [[l af]|] eqn:Hm.
    + intros H. injection H as <- <-. now apply IH.
    + apply Hhere.
Qed.

Lemma exec_all_one_line (s : jsstring) (skip : nat) :
  Forall (fun m => truthy (fst m) = true /\
                   forallb Server.not_newline (fst m) = true)
         (Server.exec_all s skip).
Proof.
  revert skip. induction s as [|c s IH]; intros skip; [constructor|].
  cbn [Server.exec_all]. destruct skip as [|n]; [|apply IH].
  destruct (Server.match_at (c :: s)) as [[[line ans] tl]|] eqn:Hm; [|apply IH].
  constructor; [|apply IH]. cbn [fst].
  unfold Server.match_at in Hm.
  destruct (strip_prefix (lit "Q:") (c :: s)) as [rest|]; [|discriminate Hm].
  destruct (Server.match_question rest) as [[l af]|] eqn:Hq; [|discriminate Hm].
  destruct (Server.match_answer _) as [an t]. injection Hm as <- _ _.
  exact (match_question_one_line rest l af Hq).
Qed.

Lemma exec_all_no_Q (s : jsstring) (skip : nat) :
  forallb (fun c => negb (c =? 81)%N) s = true -> Server.exec_all s skip = [].
Proof.
  revert skip. induction s as [|c s IH]; intros skip H; [reflexivity|].
  cbn [forallb] in H. apply andb_true_iff in H. destruct H as [Hc Hs].
  cbn [Server.exec_all]. destruct skip; [|now apply IH].
  assert (Hm : Server.match_at (c :: s) = None).
  { unfold Server.match_at.
    change (lit "Q:") with [81%N; 58%N]. cbn [strip_prefix].
    apply negb_true_iff in Hc. rewrite N.eqb_sym in Hc. now rewrite Hc. }
  rewrite Hm. now apply IH.
Qed.

Section CorpusFile.
Context {E : Externals}.
Import Server.

(** Round trip of the corpus file.  The file holds one block per entry,
    [Q: ] with the question, a line feed, [A: ] with the answer, and the
    blocks are joined by single line feeds (no blank line, no line feed at
    the end).  For entries whose question and answer are not empty, have no
    white space at either end and no carriage return, the question on one
    line and the answer without a line feed directly followed by [Q:],
    [loadFaqs] reads back exactly these entries, in order. *)
Theorem loadFaqs_render (entries : list faq) (st : state) :
  Forall (fun f => writable f = true) entries ->
  faqs (fst (loadFaqs (Some (render entries)) st)) = entries.
Proof.
  intros H. cbn [loadFaqs fst index_corpus faqs].
  rewrite (replace_crlf_no_return _ (render_no_return entries H)).
  rewrite (exec_all_render entries H), map_map. cbn [fst snd].
  induction H as [|f fs Hf Hfs IH]; [reflexivity|].
  cbn [map]. rewrite IH. f_equal.
  unfold writable in Hf.
  apply andb_true_iff in Hf. destruct Hf as [Hf _].
  apply andb_true_iff in Hf. destruct Hf as [Hf _].
  apply andb_true_iff in Hf. destruct Hf as [Hf Hta].
  apply andb_true_iff in Hf. destruct Hf as [Hf _].
  apply andb_true_iff in Hf. destruct Hf as [Htq _].
  rewrite (trim_tidy _ Htq), (trim_tidy _ Hta). now destruct f.
Qed.

(** Whatever the file holds, every loaded question is one line (it holds
    no line feed) and every loaded question and answer is empty or free of
    white space at both ends. *)
Theorem loaded_entries_are_trimmed (raw : jsstring) (st : state) :
  Forall (fun f => forallb not_newline (q f) = true /\
                   (q f = [] \/ tidy (q f) = true) /\
                   (a f = [] \/ tidy (a f) = true))
         (faqs (fst (loadFaqs (Some raw) st))).
Proof.
  cbn [loadFaqs fst index_corpus faqs].
  apply Forall_forall. intros f Hf. apply in_map_iff in Hf.
  destruct Hf as [m [<- Hm]]. cbn [q a].
  pose proof (proj1 (Forall_forall _ _) (exec_all_one_line (replace_crlf raw) 0) m Hm)
    as [_ Hl].
  split; [now apply forallb_trim|]. split; apply trim_result.
Qed.

(** A file in which no [Q] occurs loads an empty corpus, and on an empty
    corpus every question gets a null answer and no suggestion (as long as
    Fuse finds nothing in an empty collection). *)
Theorem empty_corpus_answers_nothing (raw : jsstring) (st : state) (s : jsstring) :
  forallb (fun c => negb (c =? 81)%N) raw = true ->
  fuse_search [] s 3 = [] ->
  let st' := fst (loadFaqs (Some raw) st) in
  faqs st' = [] /\
  outcome (findAnswers st' (JString s) 3)
  = Ok {| answer := None; suggestions := [] |}.
Proof.
  intros Hq Hfuse st'.
  assert (Hst : st' = index_corpus [] st).
  { subst st'. cbn [loadFaqs fst].
    now rewrite (exec_all_no_Q _ 0 (forallb_replace_crlf _ raw Hq)). }
  rewrite Hst. split; [reflexivity|].
  destruct (truthy (trim s)) eqn:Hs.
  - destruct (scoring_query_outcome s) as [query Hquery].
    rewrite (findAnswers_decide _ s query 3 Hs Hquery).
    change (firstn 3 (sort by_score_desc (scores (tfidf (index_corpus [] st)) query)))
      with (@nil scored).
    cbn [decide].
    rewrite (fuzzy_fallback_outcome (index_corpus [] st) s 3 [] eq_refl).
    cbv zeta. now rewrite Hfuse.
  - unfold findAnswers. simpl js_truthy.
    destruct (truthy s); [|reflexivity]. simpl. rewrite Hs. reflexivity.
Qed.

(** A corpus file saved with carriage return, line feed line ends loads
    the same corpus and indexes as the file with line feeds. *)
Theorem loadFaqs_crlf (text : jsstring) (st : state) :
  forallb not_return text = true ->
  loadFaqs (Some (to_crlf text)) st = loadFaqs (Some text) st.
Proof.
  intros H. cbn [loadFaqs].
  now rewrite replace_crlf_to_crlf, (replace_crlf_no_return text H).
Qed.

End CorpusFile.

(** ** The first and the one-threshold copies *)

Section OtherCopies.
Context {E : Externals}.

Lemma first_lookup_all_outcome (words expanded : list jsstring) :
  exists r, outcome (ServerFirst.lookup_all words expanded) = Ok r.
Proof.
  revert expanded. induction words as [|w words IH]; intros expanded;
    cbn [ServerFirst.lookup_all].
  - eexists; reflexivity.
  - rewrite (outcome_bind_Ok _ _ _
               (eq_refl : outcome (ServerFirst.lookup w expanded) = Ok _)).
    apply IH.
Qed.

Lemma first_expandQuery_outcome (query : jsstring) :
  exists r, outcome (ServerFirst.expandQuery query) = Ok r.
Proof.
  unfold ServerFirst.expandQuery.
  destruct (first_lookup_all_outcome (ServerFirst.split_space query)
              (Server.new_Set (ServerFirst.split_space query))) as [r Hr].
  exists (join r). now rewrite (outcome_bind_Ok _ _ r Hr).
Qed.

(** The result of the first copy's [findAnswers] for a string, by the
    best scores. *)
Lemma first_findAnswers_outcome (st : ServerFirst.state) (s : jsstring) :
  exists expanded,
    outcome (ServerFirst.expandQuery (ServerFirst.preprocess s)) = Ok expanded /\
    outcome (ServerFirst.findAnswers st (JString s) 3) =
    match firstn 3 (sort Server.by_score_desc
                      (Server.scores (ServerFirst.tfidf st) expanded)) with
    | [] => Ok {| answer := None;
                  suggestions := ServerFirst.first_questions st 3 |}
    | top :: rest =>
        if (score top <? ServerFirst.TFIDF_THRESHOLD)%float then
          Ok {| answer := None;
                suggestions := ServerFirst.first_questions st 3 |}
        else
          match nth_error (ServerFirst.faqs st) (index top) with
          | Some f =>
              Ok {| answer := Some (a f);
                    suggestions := ServerFirst.best_questions st (top :: rest) |}
          | None => Throw TypeError
          end
    end.
Proof.
  destruct (first_expandQuery_outcome (ServerFirst.preprocess s)) as [x Hx].
  exists x. split; [exact Hx|].
  unfold ServerFirst.findAnswers.
  rewrite (outcome_bind_Ok _ _ x Hx).
  rewrite (outcome_bind_Ok (Server.tfidfs (ServerFirst.tfidf st) x) _
             (Server.scores (ServerFirst.tfidf st) x) eq_refl).
  destruct (firstn 3 _) as [|top rest]; [reflexivity|].
  destruct (score top <? ServerFirst.TFIDF_THRESHOLD)%float; [reflexivity|].
  unfold ServerFirst.faq_at.
  destruct (nth_error (ServerFirst.faqs st) (index top)); reflexivity.
Qed.

Lemma first_questions_some (l : list faq) :
  l <> [] -> map q (firstn 3 l) <> [].
Proof. destruct l; [congruence | discriminate]. Qed.

(** In the first copy, on a corpus that is not empty and has no empty
    question, every string question that gets a result gets at least one
    suggestion: the best entries' questions with an answer, the first
    three corpus questions without. *)
Theorem first_findAnswers_always_suggests
        (st : ServerFirst.state) (s : jsstring) (r : QueryResult) :
  ServerFirst.faqs st <> [] ->
  Forall (fun f => truthy (q f) = true) (ServerFirst.faqs st) ->
  outcome (ServerFirst.findAnswers st (JString s) 3) = Ok r ->
  suggestions r <> [].
Proof.
  intros Hne Hq Hr.
  destruct (first_findAnswers_outcome st s) as [x [_ Hout]].
  rewrite Hr in Hout. clear Hr.
  assert (Hfirst : ServerFirst.first_questions st 3 <> [])
    by exact (first_questions_some _ Hne).
  destruct (firstn 3 _) as [|top rest].
  - injection Hout as ->. exact Hfirst.
  - destruct (score top <? ServerFirst.TFIDF_THRESHOLD)%float.
    + injection Hout as ->. exact Hfirst.
    + destruct (nth_error (ServerFirst.faqs st) (index top)) as [f|] eqn:Hf;
        [|discriminate Hout].
      injection Hout as ->. cbn [suggestions].
      unfold ServerFirst.best_questions. cbn [map filter]. rewrite Hf.
      rewrite (proj1 (Forall_forall _ _) Hq f (nth_error_In _ _ Hf)).
      discriminate.
Qed.

(** In the first copy a question that is not a string (a missing one
    included) makes [findAnswers] throw a [TypeError] before any library
    call; the [/ask] handler has no [try], so the exception leaves it
    uncaught: the handler ends with that exception instead of a state and
    a body sent with [res.json]. *)
Theorem first_ask_needs_a_string (st : ServerFirst.state) (question : jsval) :
  (forall s, question <> JString s) ->
  outcome (ServerFirst.findAnswers st question 3) = Throw TypeError /\
  calls (ServerFirst.findAnswers st question 3) = [] /\
  ServerFirst.ask st question = Throw TypeError.
Proof.
  intros Hns.
  assert (H : outcome (ServerFirst.findAnswers st question 3) = Throw TypeError).
  { destruct question; try reflexivity. now destruct (Hns s). }
  split; [exact H|]. split.
  - destruct question; try reflexivity. now destruct (Hns s).
  - unfold ServerFirst.ask. now rewrite H.
Qed.

(** In the one-threshold copy, on a corpus that is not empty and has no
    empty question, every non-blank question that gets a result gets at
    least one suggestion. *)
Theorem unified_findAnswers_always_suggests
        (st : Server.state) (s : jsstring) (r : QueryResult) :
  Server.faqs st <> [] ->
  Forall (fun f => truthy (q f) = true) (Server.faqs st) ->
  truthy (trim s) = true ->
  outcome (ServerUnified.findAnswers st (JString s) 3) = Ok r ->
  suggestions r <> [].
Proof.
  intros Hne Hq Hs Hr.
  destruct (unified_scoring_query_outcome s) as [query Hquery].
  rewrite (unified_findAnswers_decide st s query 3 Hs Hquery) in Hr.
  assert (Hfirst : ServerUnified.first_questions st 3 <> [])
    by exact (first_questions_some _ Hne).
  assert (Hfz : outcome (ServerUnified.fuzzy_fallback st s 3) = Ok r ->
                suggestions r <> []).
  { unfold ServerUnified.fuzzy_fallback.
    destruct (Server.fuse st) as [collection|].
    2:{ intros H. injection H as <-. exact Hfirst. }
    rewrite outcome_called.
    destruct (fuse_search collection s 3) as [|r0 rest].
    - intros H. injection H as <-. exact Hfirst.
    - destruct (Fuse.score r0 <=? ServerUnified.FUSE_ACCEPT_THRESHOLD)%float;
        intros H; injection H as <-; discriminate. }
  unfold ServerUnified.decide in Hr.
  destruct (firstn 3 _) as [|top rest]; [now apply Hfz|].
  destruct (ServerUnified.TFIDF_THRESHOLD <=? score top)%float; [|now apply Hfz].
  unfold Server.faq_at in Hr.
  destruct (nth_error (Server.faqs st) (index top)) as [f|] eqn:Hf;
    [|discriminate Hr].
  injection Hr as <-. cbn [suggestions].
  unfold ServerUnified.best_questions. cbn [map filter]. rewrite Hf.
  rewrite (proj1 (Forall_forall _ _) Hq f (nth_error_In _ _ Hf)).
  discriminate.
Qed.

End OtherCopies.

Section AnsweredQuestion.
Context {E : Externals}.
Import Server.

(** Whenever [findAnswers] returns an answer together with suggestions,
    the answer and the first suggestion come from one and the same entry:
    the corpus entry at the index of the best TF-IDF score, or the item of
    the first Fuse candidate.  The answered question is not removed from
    the suggestions. *)
Theorem answered_question_leads_suggestions
        (st : state) (s : jsstring) (r : QueryResult) (x : jsstring) :
  ready st ->
  outcome (findAnswers st (JString s) 3) = Ok r ->
  answer r = Some x ->
  suggestions r = [] \/
  exists f,
    a f = x /\ hd_error (suggestions r) = Some (q f) /\
    ((exists query top rest,
        outcome (scoring_query s) = Ok query /\
        firstn 3 (sort by_score_desc (scores (tfidf st) query)) = top :: rest /\
        nth_error (faqs st) (index top) = Some f) \/
     (exists r0 rest,
        fuse_search (faqs st) s 3 = r0 :: rest /\ f = Fuse.item r0)).
Proof.
  intros [Hal Hf] Hr Hx.
  destruct (truthy (trim s)) eqn:Hs.
  2:{ assert (H : outcome (findAnswers st (JString s) 3)
                  = Ok {| answer := None; suggestions := [] |}).
      { unfold findAnswers. simpl js_truthy.
        destruct (truthy s); [|reflexivity]. simpl. rewrite Hs. reflexivity. }
      rewrite H in Hr. injection Hr as <-. discriminate Hx. }
  destruct (scoring_query_outcome s) as [query Hq].
  rewrite (findAnswers_decide st s query 3 Hs Hq) in Hr.
  assert (Hfz : outcome (fuzzy_fallback st s 3) = Ok r ->
                suggestions r = [] \/
                exists f,
                  a f = x /\ hd_error (suggestions r) = Some (q f) /\
                  exists r0 rest,
                    fuse_search (faqs st) s 3 = r0 :: rest /\ f = Fuse.item r0).
  { rewrite (fuzzy_fallback_outcome st s 3 (faqs st) Hf). cbv zeta.
    destruct (fuse_search (faqs st) s 3) as [|r0 rest].
    - intros H. injection H as <-. now left.
    - destruct (Fuse.score r0 <=? FUSE_ACCEPT_THRESHOLD)%float;
        [destruct rest as [|r1 rest'];
         [|destruct (abs (Fuse.score r0 - Fuse.score r1) <? FUSE_AMBIGUITY)%float]|];
        intros H; injection H as <-; try discriminate Hx;
        injection Hx as <-; right; exists (Fuse.item r0);
        (split; [reflexivity|]); (split; [reflexivity|]);
        eexists; eexists; split; reflexivity. }
  assert (Hfz' : outcome (fuzzy_fallback st s 3) = Ok r ->
                 suggestions r = [] \/
                 exists f,
                   a f = x /\ hd_error (suggestions r) = Some (q f) /\
                   ((exists query top rest,
                       outcome (scoring_query s) = Ok query /\
                       firstn 3 (sort by_score_desc (scores (tfidf st) query))
                       = top :: rest /\
                       nth_error (faqs st) (index top) = Some f) \/
                    (exists r0 rest,
                       fuse_search (faqs st) s 3 = r0 :: rest /\
                       f = Fuse.item r0))).
  { intros H. destruct (Hfz H) as [He|[f [H1 [H2 H3]]]]; [now left|].
    right. exists f. split; [exact H1|]. split; [exact H2|]. right. exact H3. }
  destruct (firstn 3 (sort by_score_desc (scores (tfidf st) query)))
    as [|top rest] eqn:Hbest; [now apply Hfz'|].
  destruct (faq_at_aligned st query 3 top Hal) as [f Hft];
    [rewrite Hbest; now left|].
  pose proof (decide_outcome st s query 3 top rest f Hal Hbest Hft) as Hd.
  rewrite Hbest in Hd. rewrite Hd in Hr.
  destruct ((TFIDF_STRONG <=? score top)
            && (TFIDF_SCORE_GAP <=? gap_of top rest))%float.
  - injection Hr as <-. now left.
  - destruct (TFIDF_WEAK <=? score top)%float; [|now apply Hfz'].
    injection Hr as <-. injection Hx as <-. right. exists f.
    split; [reflexivity|]. split.
    + cbn [suggestions map hd_error]. unfold question_at. now rewrite Hft.
    + left. exists query, top, rest. repeat split; assumption.
Qed.

End AnsweredQuestion.

(** ** Runs of the further properties *)

Lemma answered_question_leads_suggestions_witness :
  [lit "How do I reset my password?"; lit "How do I contact support?"] = [] \/
  exists f,
    a f = lit "Use the reset link." /\
    hd_error [lit "How do I reset my password?";
              lit "How do I contact support?"] = Some (q f) /\
    ((exists query top rest,
        outcome (@Server.scoring_query Sample.externals (lit "contact reset"))
        = Ok query /\
        firstn 3 (sort Server.by_score_desc
                    (@Server.scores Sample.externals
                       (Server.tfidf Sample.loaded) query))
        = top :: rest /\
        nth_error (Server.faqs Sample.loaded) (index top) = Some f) \/
     (exists r0 rest,
        @fuse_search Sample.externals (Server.faqs Sample.loaded)
          (lit "contact reset") 3 = r0 :: rest /\
        f = Fuse.item r0)).
Proof.
  exact (@answered_question_leads_suggestions Sample.externals Sample.loaded
           (lit "contact reset")
           {| answer := Some (lit "Use the reset link.");
              suggestions := [lit "How do I reset my password?";
                              lit "How do I contact support?"] |}
           (lit "Use the reset link.") (conj eq_refl eq_refl) eq_refl eq_refl).
Defined.

Lemma findAnswers_at_most_k_suggestions_witness :
  (List.length [lit "How do I reset my password?";
                lit "How do I contact support?"] <= 3)%nat.
Proof.
  apply (@findAnswers_at_most_k_suggestions Sample.externals Sample.loaded
           (lit "how do i")
           {| answer := None;
              suggestions := [lit "How do I reset my password?";
                              lit "How do I contact support?"] |}
           (conj eq_refl eq_refl)).
  - vm_compute. repeat constructor.
  - reflexivity.
Defined.

Lemma findAnswers_returns_corpus_text_witness :
  (forall x, Some (lit "Use the reset link.") = Some x ->
             exists f, In f [Sample.password; Sample.support] /\ a f = x) /\
  (forall x, In x [lit "How do I reset my password?";
                   lit "How do I contact support?"] ->
             exists f, In f [Sample.password; Sample.support] /\ q f = x).
Proof.
  apply (@findAnswers_returns_corpus_text Sample.externals Sample.loaded
           (lit "how do i my")
           {| answer := Some (lit "Use the reset link.");
              suggestions := [lit "How do I reset my password?";
                              lit "How do I contact support?"] |}
           (conj eq_refl eq_refl)).
  - apply Forall_forall. vm_compute.
    repeat constructor; ((left; reflexivity) || (right; left; reflexivity)).
  - reflexivity.
Defined.

Lemma expandQuery_without_synonyms_witness :
  outcome (@Server.expandQuery Sample.externals (lit "xyzabc nonsense xyzabc"))
  = Ok (lit "xyzabc nonsense").
Proof.
  apply (@expandQuery_without_synonyms Sample.externals
           (lit "xyzabc nonsense xyzabc") eq_refl).
  intros w Hw. vm_compute in Hw.
  destruct Hw as [<-|[<-|[<-|[]]]]; right; reflexivity.
Defined.

Lemma expandQuery_without_letters_witness :
  calls (@Server.expandQuery Sample.externals (lit "16221 ?!")) = [] /\
  outcome (@Server.expandQuery Sample.externals (lit "16221 ?!")) = Ok [].
Proof.
  exact (@expandQuery_without_letters Sample.externals (lit "16221 ?!") eq_refl).
Defined.

Lemma preprocess_nothing_kept_witness :
  @Server.preprocess Sample.externals (lit " ?! ... (-) ") = [].
Proof.
  exact (@preprocess_nothing_kept Sample.externals (lit " ?! ... (-) ") eq_refl).
Defined.

Lemma preprocess_keeps_other_scripts_witness :
  @Server.preprocess Sample.externals
    (join [[2453; 2494; 2480; 2509; 2465]%N; lit "16221"])
  = join [[2453; 2494; 2480; 2509; 2465]%N; lit "16221"].
Proof.
  apply (@preprocess_keeps_other_scripts Sample.externals
           (join [[2453; 2494; 2480; 2509; 2465]%N; lit "16221"])
           [[2453; 2494; 2480; 2509; 2465]%N; lit "16221"]).
  - reflexivity.
  - repeat constructor.
  - reflexivity.
Defined.

Lemma loadFaqs_render_witness :
  Server.faqs (fst (@Server.loadFaqs Sample.externals
                      (Some (Server.render [Sample.password; Sample.support]))
                      Server.initial))
  = [Sample.password; Sample.support].
Proof.
  apply (@loadFaqs_render Sample.externals [Sample.password; Sample.support]).
  repeat constructor.
Defined.

Lemma empty_corpus_answers_nothing_witness :
  let st' := fst (@Server.loadFaqs Sample.externals
                    (Some (lit "questions will follow")) Sample.loaded) in
  Server.faqs st' = [] /\
  outcome (@Server.findAnswers Sample.externals st' (JString (lit "reset password")) 3)
  = Ok {| answer := None; suggestions := [] |}.
Proof.
  exact (@empty_corpus_answers_nothing Sample.externals
           (lit "questions will follow") Sample.loaded (lit "reset password")
           eq_refl eq_refl).
Defined.

Lemma loadFaqs_crlf_witness :
  @Server.loadFaqs Sample.externals (Some (Server.to_crlf Sample.faq_txt))
    Server.initial
  = @Server.loadFaqs Sample.externals (Some Sample.faq_txt) Server.initial.
Proof.
  exact (@loadFaqs_crlf Sample.externals Sample.faq_txt Server.initial eq_refl).
Defined.

Lemma first_findAnswers_always_suggests_witness :
  [lit "How do I reset my password?"; lit "How do I contact support?"] <> [].
Proof.
  apply (@first_findAnswers_always_suggests Sample.externals Sample.first_loaded
           (lit "reset password")
           {| answer := Some (lit "Use the reset link.");
              suggestions := [lit "How do I reset my password?";
                              lit "How do I contact support?"] |}).
  - discriminate.
  - vm_compute. repeat constructor.
  - reflexivity.
Defined.

Lemma first_ask_needs_a_string_witness :
  @ServerFirst.ask Sample.externals Sample.first_loaded JUndefined
  = Throw TypeError.
Proof.
  refine (proj2 (proj2 (@first_ask_needs_a_string Sample.externals
                          Sample.first_loaded JUndefined _))).
  intros s H. discriminate H.
Defined.

Lemma unified_findAnswers_always_suggests_witness :
  [lit "How do I reset my password?"; lit "How do I contact support?"] <> [].
Proof.
  apply (@unified_findAnswers_always_suggests Sample.externals Sample.loaded
           (lit "xyzabc nonsense")
           {| answer := None;
              suggestions := [lit "How do I reset my password?";
                              lit "How do I contact support?"] |}).
  - discriminate.
  - vm_compute. repeat constructor.
  - reflexivity.
  - reflexivity.
Defined.
